(** * cadence-tavern: the customer directory, the greeting and order
    workflows, and the signal loop of [WorkflowOrder]

    A shallow embedding of the Go packages [customer], [greetings] and
    [orders].  Package-level variables ([customer.Database],
    [greetings.visitorCount]) are threaded explicitly; the Cadence
    primitives the workflows call (activities, signal channel, selector,
    child workflows, continue-as-new) are given the operational reading
    of the Cadence Go client. *)

From Stdlib Require Import ZArith Lia Bool String.
From stdpp Require Import base option list gmap strings.

Local Open Scope Z_scope.

(** ** Go's [int] on a 64-bit target *)

Module GoInt.

Definition max_int : Z := 2 ^ 63 - 1.
Definition min_int : Z := - 2 ^ 63.

(** Two's-complement wrap-around of an arbitrary integer into [int]. *)
Definition wrap (z : Z) : Z := (z + 2 ^ 63) mod 2 ^ 64 - 2 ^ 63.

Definition add (a b : Z) : Z := wrap (a + b).

Definition in_range (z : Z) : Prop := min_int <= z <= max_int.

End GoInt.

(** ** Errors and time stamps *)

(** A Go [error] built by [errors.New] or [fmt.Errorf]: its message. *)
Inductive error : Type := GoError (msg : string).

(** [time.Time], as an offset from the zero [Time]. *)
Definition Time : Type := Z.
Definition zeroTime : Time := 0.

(** ** package customer *)

Module customer.

Record Customer : Type := mkCustomer {
  Name : string;
  LastVisit : Time;
  TimesVisited : Z;
  Age : Z
}.

(** The composite literal [Customer{}]. *)
Definition zeroCustomer : Customer :=
  {| Name := ""; LastVisit := zeroTime; TimesVisited := 0; Age := 0 |}.

(** [MemoryCustomers]: the field is a Go map, [None] being the nil map. *)
Record MemoryCustomers : Type := mkMemoryCustomers {
  Customers : option (gmap string Customer)
}.

Definition NewMemoryCustomers : MemoryCustomers :=
  {| Customers := Some ∅ |}.

(** The map after the [if mc.Customers == nil { ... make ... }] guard. *)
Definition ensure_map (mc : MemoryCustomers) : gmap string Customer :=
  match Customers mc with
  | None => ∅
  | Some m => m
  end.

Definition no_such_customer (name : string) : error :=
  GoError (String.append "no such customer: " name).

(** [func (mc *MemoryCustomers) Get(name string) (Customer, error)]:
    the receiver after the call, then the two results. *)
Definition Get (mc : MemoryCustomers) (name : string)
  : MemoryCustomers * (Customer * option error) :=
  let m := ensure_map mc in
  let mc' := {| Customers := Some m |} in
  match m !! name with
  | Some cust => (mc', (cust, None))
  | None => (mc', (zeroCustomer, Some (no_such_customer name)))
  end.

(** [func (mc *MemoryCustomers) Update(customer Customer) error]. *)
Definition Update (mc : MemoryCustomers) (c : Customer)
  : MemoryCustomers * option error :=
  let m := ensure_map mc in
  ({| Customers := Some (<[Name c := c]> m) |}, None).

(** What a caller can observe of a directory: the record under each name. *)
Definition stored (mc : MemoryCustomers) (name : string) : option Customer :=
  ensure_map mc !! name.

(** The visit count on file for [name]; an absent name reads as the
    [TimesVisited] of [Customer{}]. *)
Definition visits (mc : MemoryCustomers) (name : string) : Z :=
  TimesVisited (default zeroCustomer (stored mc name)).

End customer.

Import customer.

(** The package-level variables of the worker process. *)
Record Globals : Type := mkGlobals {
  Database : MemoryCustomers;
  visitorCount : Z
}.

Definition initGlobals : Globals :=
  {| Database := NewMemoryCustomers; visitorCount := 0 |}.

(** ** Activities as the workflow sees them *)

Module cadence.

(** How the substrate delivers one [ExecuteActivity(...).Get]: the
    activity's own results, or a failure of the substrate (time-out,
    lost worker) reported before the activity started or after it ran. *)
Inductive delivery : Type :=
| Delivered
| FailedBeforeStart (e : error)
| FailedAfterRun (e : error).

(** [workflow.ExecuteActivity(ctx, act, args...).Get(ctx, &out)]: the
    globals after the call, the value decoded into [out] (if any) and
    the error returned by [Get]. *)
Definition ExecuteActivity {A : Type} (d : delivery)
    (act : Globals -> Globals * (A * option error)) (g : Globals)
  : Globals * (option A * option error) :=
  match d with
  | FailedBeforeStart e => (g, (None, Some e))
  | FailedAfterRun e => (fst (act g), (None, Some e))
  | Delivered =>
      let '(g', (a, err)) := act g in
      match err with
      | Some e => (g', (None, Some e))
      | None => (g', (Some a, None))
      end
  end.

End cadence.

Import cadence.

(** ** package greetings *)

Module greetings.

(** [activityGreetings]; [now] is the value [time.Now()] returns. *)
Definition activityGreetings (now : Time) (visitor : Customer) (g : Globals)
  : Globals * (Customer * option error) :=
  let count := GoInt.add (visitorCount g) 1 in
  let '(db, (oldCustomerInfo, _)) := Get (Database g) (Name visitor) in
  let visitor :=
    {| Name := Name visitor;
       LastVisit := now;
       TimesVisited := GoInt.add (TimesVisited oldCustomerInfo) 1;
       Age := Age visitor |} in
  ({| Database := db; visitorCount := count |}, (visitor, None)).

(** [activityStoreCustomer]. *)
Definition activityStoreCustomer (visitor : Customer) (g : Globals)
  : Globals * (unit * option error) :=
  let '(db, err) := Update (Database g) visitor in
  let g' := {| Database := db; visitorCount := visitorCount g |} in
  match err with
  | Some e => (g', (tt, Some e))
  | None => (g', (tt, None))
  end.

(** [workflowGreetings]: [d1] and [d2] are the deliveries of its two
    activity calls. *)
Definition workflowGreetings (d1 d2 : delivery) (now : Time)
    (visitor : Customer) (g : Globals)
  : Globals * (Customer * option error) :=
  let '(g1, (out, err)) :=
    ExecuteActivity d1 (activityGreetings now visitor) g in
  match err with
  | Some e => (g1, (zeroCustomer, Some e))
  | None =>
      (* Get(ctx, &visitor) overwrites the local on success *)
      let visitor := default visitor out in
      let '(g2, (_, err)) :=
        ExecuteActivity d2 (activityStoreCustomer visitor) g1 in
      match err with
      | Some e => (g2, (zeroCustomer, Some e))
      | None => (g2, (visitor, None))
      end
  end.

(** Several runs of [workflowGreetings] served by one worker: the
    activities of different runs interleave, the two activities of one
    run in order; between them the run holds the record its first
    activity returned. *)
Inductive GreetEvent : Type :=
| RunsGreetings (run : nat) (now : Time) (visitor : Customer)
| RunsStore (run : nat).

Record Floor : Type := mkFloor {
  floor_globals : Globals;
  holding : gmap nat Customer
}.

Definition greet_step (e : GreetEvent) (f : Floor) : option Floor :=
  match e with
  | RunsGreetings run now visitor =>
      match holding f !! run with
      | Some _ => None
      | None =>
          let '(g, (out, _)) :=
            activityGreetings now visitor (floor_globals f) in
          Some {| floor_globals := g;
                  holding := <[run := out]> (holding f) |}
      end
  | RunsStore run =>
      match holding f !! run with
      | None => None
      | Some visitor =>
          let '(g, _) := activityStoreCustomer visitor (floor_globals f) in
          Some {| floor_globals := g; holding := delete run (holding f) |}
      end
  end.

(** The visit count on file for [name] after each event of a schedule. *)
Fixpoint counts_along (name : string) (es : list GreetEvent) (f : Floor)
  : option (list Z) :=
  match es with
  | [] => Some []
  | e :: es' =>
      match greet_step e f with
      | Some f' =>
          match counts_along name es' f' with
          | Some counts =>
              Some (visits (Database (floor_globals f')) name :: counts)
          | None => None
          end
      | None => None
      end
  end.

End greetings.

(** ** package orders *)

Module orders.

(** [Order]; [Price] stands for the float32 payload, which is only
    logged. *)
Record Order : Type := mkOrder {
  Item : string;
  Price : Z;
  By : string
}.

Definition MaxSignalsAmount : Z := 3.

(** [activitiyFindCustomerByName]. *)
Definition activitiyFindCustomerByName (name : string) (g : Globals)
  : Globals * (Customer * option error) :=
  let '(db, r) := Get (Database g) name in
  ({| Database := db; visitorCount := visitorCount g |}, r).

Definition not_old_enough : error :=
  GoError "customer is not old enough, dont serve him".

(** [activityIsCustomerLegal]. *)
Definition activityIsCustomerLegal (visitor : Customer)
  : bool * option error :=
  if Age visitor <? 18 then (false, Some not_old_enough) else (true, None).

(** [workflowProcessOrder]: the child workflow run for one order. *)
Definition workflowProcessOrder (d1 d2 : delivery) (order : Order)
    (g : Globals) : Globals * option error :=
  let '(g1, (out, err)) :=
    ExecuteActivity d1 (activitiyFindCustomerByName (By order)) g in
  match err with
  | Some e => (g1, Some e)
  | None =>
      let cust := default zeroCustomer out in
      let '(g2, (_, err)) :=
        ExecuteActivity d2 (fun g => (g, activityIsCustomerLegal cust)) g1 in
      match err with
      | Some e => (g2, Some e)
      | None => (g2, None)
      end
  end.

(** *** [WorkflowOrder], the signal loop

    The workflow function runs as one coroutine.  Its control points:
    the head of the [for] loop; inside [selector.Select] with no branch
    taken yet; inside the receive callback, parked in [waiter.Get] on
    the child it has just started; after [Select] has returned; and
    after [return workflow.NewContinueAsNewError(...)]. *)
Inductive Pc : Type :=
| AtLoop
| AtSelect
| InGet (c : nat)
| AfterSelect
| Returned.

Inductive ChildStatus : Type :=
| ChildRunning
| ChildClosed (result : option error).

(** A child workflow started by [ExecuteChildWorkflow]. *)
Record Child : Type := mkChild {
  child_order : Order;
  child_status : ChildStatus
}.

(** One run of [WorkflowOrder] together with what the substrate holds
    for it: the locals [restartWorkflow] and [signalCount], the cases
    added to [selector], the children started by this run (in start
    order), the number of earlier runs, the buffered values of the
    signal channel "order", and the worker's globals. *)
Record State : Type := mkState {
  pc : Pc;
  restartWorkflow : bool;
  signalCount : Z;
  receives : nat;
  hasDefault : bool;
  children : list Child;
  generation : nat;
  signalChan : list Order;
  globals : Globals
}.

(** Entering the function body: [var restartWorkflow bool],
    [signalCount := 0], [selector := workflow.NewSelector(ctx)]. *)
Definition WorkflowOrder_start (gen : nat) (chan : list Order)
    (g : Globals) : State :=
  {| pc := AtLoop; restartWorkflow := false; signalCount := 0;
     receives := 0; hasDefault := false; children := [];
     generation := gen; signalChan := chan; globals := g |}.

Definition set_pc (p : Pc) (s : State) : State :=
  {| pc := p; restartWorkflow := restartWorkflow s;
     signalCount := signalCount s; receives := receives s;
     hasDefault := hasDefault s; children := children s;
     generation := generation s; signalChan := signalChan s;
     globals := globals s |}.

(** [selector.AddReceive(...)], then the guarded [selector.AddDefault]. *)
Definition loop_head (s : State) : State :=
  {| pc := AtSelect; restartWorkflow := restartWorkflow s;
     signalCount := signalCount s; receives := S (receives s);
     hasDefault :=
       if MaxSignalsAmount <=? signalCount s then true else hasDefault s;
     children := children s;
     generation := generation s; signalChan := signalChan s;
     globals := globals s |}.

(** The receive callback up to [waiter.Get]: [c.Receive],
    [signalCount++], [ExecuteChildWorkflow]. *)
Definition on_receive (order : Order) (rest : list Order) (s : State)
  : State :=
  {| pc := InGet (length (children s));
     restartWorkflow := restartWorkflow s;
     signalCount := GoInt.add (signalCount s) 1;
     receives := receives s; hasDefault := hasDefault s;
     children :=
       children s ++
         [{| child_order := order; child_status := ChildRunning |}];
     generation := generation s; signalChan := rest;
     globals := globals s |}.

(** The default callback: [restartWorkflow = true]. *)
Definition on_default (s : State) : State :=
  {| pc := AfterSelect; restartWorkflow := true;
     signalCount := signalCount s; receives := receives s;
     hasDefault := hasDefault s; children := children s;
     generation := generation s; signalChan := signalChan s;
     globals := globals s |}.

(** [selector.Select(ctx)]: a receive case whose channel holds a value
    is taken first; with no value buffered the default case is taken
    when there is one; otherwise the coroutine stays parked. *)
Definition select (s : State) : option State :=
  match signalChan s with
  | order :: rest => Some (on_receive order rest s)
  | [] => if hasDefault s then Some (on_default s) else None
  end.

(** [waiter.Get(ctx, nil)]: returns once the child has closed. *)
Definition waiter_Get (c : nat) (s : State) : option State :=
  match children s !! c with
  | Some {| child_status := ChildClosed _ |} => Some (set_pc AfterSelect s)
  | _ => None
  end.

(** One move of the workflow coroutine; [None] when it is parked or has
    returned. *)
Definition WorkflowOrder_step (s : State) : option State :=
  match pc s with
  | AtLoop => Some (loop_head s)
  | AtSelect => select s
  | InGet c => waiter_Get c s
  | AfterSelect =>
      if restartWorkflow s then Some (set_pc Returned s)
      else Some (set_pc AtLoop s)
  | Returned => None
  end.

(** How a child's execution ends: [workflowProcessOrder] runs with the
    given activity deliveries, or the substrate closes the child with
    an error of its own (it could not be started, or it exceeded its
    [ExecutionStartToCloseTimeout]). *)
Inductive ChildFate : Type :=
| Runs (d1 d2 : delivery)
| Fails (e : error).

Definition child_timeout : error := GoError "TimeoutType: START_TO_CLOSE".

Definition close_child (c : nat) (fate : ChildFate) (s : State)
  : option State :=
  match children s !! c with
  | Some {| child_order := order; child_status := ChildRunning |} =>
      let '(g, result) :=
        match fate with
        | Runs d1 d2 => workflowProcessOrder d1 d2 order (globals s)
        | Fails e => (globals s, Some e)
        end in
      Some {| pc := pc s; restartWorkflow := restartWorkflow s;
              signalCount := signalCount s; receives := receives s;
              hasDefault := hasDefault s;
              children :=
                <[c := {| child_order := order;
                          child_status := ChildClosed result |}]>
                  (children s);
              generation := generation s; signalChan := signalChan s;
              globals := g |}
  | _ => None
  end.

Definition deliver_signal (order : Order) (s : State) : State :=
  {| pc := pc s; restartWorkflow := restartWorkflow s;
     signalCount := signalCount s; receives := receives s;
     hasDefault := hasDefault s; children := children s;
     generation := generation s; signalChan := signalChan s ++ [order];
     globals := globals s |}.

(** Continue-as-new: once the function has returned the error, the
    substrate starts [WorkflowOrder] again from its entry. *)
Definition continue_as_new (s : State) : option State :=
  match pc s with
  | Returned =>
      Some (WorkflowOrder_start (S (generation s)) (signalChan s)
              (globals s))
  | _ => None
  end.

(** What can happen next: the coroutine moves, a signal is delivered, a
    running child closes, or a returned run is continued as new. *)
Inductive Event : Type :=
| Tick
| Signal (order : Order)
| Close (c : nat) (fate : ChildFate)
| NewRun.

Definition step (e : Event) (s : State) : option State :=
  match e with
  | Tick => WorkflowOrder_step s
  | Signal order => Some (deliver_signal order s)
  | Close c fate => close_child c fate s
  | NewRun => continue_as_new s
  end.

Fixpoint exec (es : list Event) (s : State) : option State :=
  match es with
  | [] => Some s
  | e :: es' =>
      match step e s with
      | Some s' => exec es' s'
      | None => None
      end
  end.

(** The first run, started on an empty signal channel. *)
Definition init (g : Globals) : State := WorkflowOrder_start 0 [] g.

Definition reachable (s : State) : Prop :=
  exists g es, exec es (init g) = Some s.

Definition running (ch : Child) : bool :=
  match child_status ch with
  | ChildRunning => true
  | ChildClosed _ => false
  end.

(** Child [c] of the current run has been started and has not closed. *)
Definition in_flight (s : State) (c : nat) : bool :=
  match children s !! c with
  | Some ch => running ch
  | None => false
  end.

(** No child of the current run is still running. *)
Definition all_closed (s : State) : bool :=
  forallb (fun ch => negb (running ch)) (children s).

(** The number of sub-tasks the current run has dispatched. *)
Definition dispatched (s : State) : nat := length (children s).

End orders.

Import greetings orders.

(** ** Sample data *)

Definition bob : Customer :=
  {| Name := "bob"; LastVisit := 1000; TimesVisited := 4; Age := 30 |}.

Definition tim17 : Customer :=
  {| Name := "tim"; LastVisit := 1000; TimesVisited := 1; Age := 17 |}.

Definition tim18 : Customer :=
  {| Name := "tim"; LastVisit := 1000; TimesVisited := 1; Age := 18 |}.

(** A directory holding [bob] and the under-age [tim17]. *)
Definition tavern : Globals :=
  {| Database :=
       fst (Update (fst (Update NewMemoryCustomers bob)) tim17);
     visitorCount := 2 |}.



Definition ale : Order := {| Item := "ale"; Price := 5; By := "bob" |}.
Definition mead : Order := {| Item := "mead"; Price := 7; By := "bob" |}.

(** One turn of the loop for the next buffered signal: the loop head, the
    [Select] that receives it and starts child [c], the close of that
    child, the return of [waiter.Get], and the test after [Select]. *)
Definition serve (c : nat) (fate : ChildFate) : list Event :=
  [Tick; Tick; Close c fate; Tick; Tick].

(** Three orders, each served in turn, then one more turn of the loop on
    an empty channel: the default case fires and the run returns. *)
Definition three_orders_then_restart : list Event :=
  [Signal ale; Signal mead; Signal ale]
    ++ serve 0 (Runs Delivered Delivered)
    ++ serve 1 (Runs Delivered Delivered)
    ++ serve 2 (Fails child_timeout)
    ++ [Tick; Tick; Tick].

(** Four orders are buffered before the loop serves the first; after
    three turns the loop stands in its fourth [Select]. *)
Definition three_served_one_queued : list Event :=
  [Signal ale; Signal mead; Signal ale; Signal mead]
    ++ serve 0 (Runs Delivered Delivered)
    ++ serve 1 (Runs Delivered Delivered)
    ++ serve 2 (Runs Delivered Delivered)
    ++ [Tick].

(** The same schedule, followed by that fourth [Select]. *)
Definition four_orders_queued : list Event :=
  three_served_one_queued ++ [Tick].

(** A second order arrives while the child of the first is running. *)
Definition second_order_arrives : list Event :=
  [Signal ale; Tick; Tick; Signal mead].

(** Two states of the globals that no caller can tell apart: the same
    visitor counter and the same record under every name. *)
Definition same_view (g g' : Globals) : Prop :=
  visitorCount g' = visitorCount g /\
  forall n : string, stored (Database g') n = stored (Database g) n.

(** What every reachable state of the signal loop satisfies: the counter
    is the number of sub-tasks this run has dispatched (in [int]
    arithmetic); the default case is only present once three signals
    have been received, and is present at every [Select] from then on;
    [restartWorkflow] is only set by the default callback; and a child
    is running only while the coroutine is parked in its [waiter.Get]. *)
Record Inv (s : State) : Prop := mkInv {
  I_count : signalCount s = GoInt.wrap (Z.of_nat (dispatched s));
  I_default : hasDefault s = true -> (3 <= dispatched s)%nat;
  I_restart :
    restartWorkflow s = true ->
    hasDefault s = true /\ (pc s = AfterSelect \/ pc s = Returned);
  I_returned : pc s = Returned -> restartWorkflow s = true;
  I_inflight : forall c : nat, in_flight s c = true -> pc s = InGet c;
  I_armed :
    pc s = AtSelect \/ (4 <= dispatched s)%nat ->
    (3 <= dispatched s)%nat -> hasDefault s = true
}.

(** Events other than the close of a child. *)
Definition no_close (e : Event) : bool :=
  match e with
  | Close _ _ => false
  | _ => true
  end.

(** ** Sequences of calls *)

(** A sequence of [Update] calls on one directory, in order. *)
Definition apply_updates (rs : list Customer) (mc : MemoryCustomers)
  : MemoryCustomers :=
  fold_left (fun mc r => fst (Update mc r)) rs mc.

(** The record a reader expects under [name] after the updates [rs], when
    [cur] was there before: the last record of [rs] carrying that name. *)
Fixpoint latest (name : string) (rs : list Customer) (cur : option Customer)
  : option Customer :=
  match rs with
  | [] => cur
  | r :: rs' =>
      latest name rs' (if decide (Name r = name) then Some r else cur)
  end.

(** Greetings of one visitor served one after the other, each with both
    activities delivered, at the given clock readings. *)
Definition greet_many (nows : list Time) (visitor : Customer) (g : Globals)
  : Globals :=
  fold_left
    (fun g now => fst (workflowGreetings Delivered Delivered now visitor g))
    nows g.

(** Runs of the interleaved greeting schedule. *)
Fixpoint greet_exec (es : list GreetEvent) (f : Floor) : option Floor :=
  match es with
  | [] => Some f
  | e :: es' =>
      match greet_step e f with
      | Some f' => greet_exec es' f'
      | None => None
      end
  end.

(** The run an interleaved greeting event belongs to. *)
Definition run_of (e : GreetEvent) : nat :=
  match e with
  | RunsGreetings run _ _ => run
  | RunsStore run => run
  end.

(** The orders carried by the [Signal] events of a schedule, in order. *)
Fixpoint signals_of (es : list Event) : list Order :=
  match es with
  | [] => []
  | Signal order :: es' => order :: signals_of es'
  | _ :: es' => signals_of es'
  end.

Definition no_new_run (e : Event) : bool :=
  match e with
  | NewRun => false
  | _ => true
  end.

(** The orders of the sub-tasks dispatched so far by the current run,
    followed by the orders still buffered. *)
Definition orders_in_hand (s : State) : list Order :=
  map child_order (children s) ++ signalChan s.

(** An event with the outcome of the closing child forgotten. *)
Definition erase_fate (e : Event) : Event :=
  match e with
  | Close c _ => Close c (Fails child_timeout)
  | _ => e
  end.

(** What steers the loop: everything in the state but the results of the
    closed children and the globals. *)
Definition control (s : State)
  : Pc * bool * Z * nat * bool * list (Order * bool) * nat * list Order :=
  (pc s, restartWorkflow s, signalCount s, receives s, hasDefault s,
   (fun ch => (child_order ch, running ch)) <$> children s,
   generation s, signalChan s).

(** Serving the buffered signals one after the other, the child of the
    [i]-th ending as [fates] says; [c] is the index of the first child. *)
Fixpoint serve_all (c : nat) (fates : list ChildFate) : list Event :=
  match fates with
  | [] => []
  | fate :: fates' => serve c fate ++ serve_all (S c) fates'
  end.

(** The turns of the loop, counted: one while a [Select] is under way,
    and one for the turn in which the default case was taken. *)
Definition pending_select (s : State) : nat :=
  match pc s with
  | AtSelect => 1
  | _ => 0
  end.

Definition default_taken (s : State) : nat :=
  if restartWorkflow s then 1 else 0.

(** Bookkeeping kept by the loop besides [Inv]: the child the coroutine
    is parked on is the one dispatched last, and the selector holds one
    receive case per turn of the loop. *)
Record Turns (s : State) : Prop := mkTurns {
  T_latest : forall c : nat, pc s = InGet c -> S c = dispatched s;
  T_receives :
    receives s = (dispatched s + pending_select s + default_taken s)%nat
}.

(** * Properties *)

(** ** Arithmetic of [int] *)

Lemma wrap_id z : GoInt.in_range z -> GoInt.wrap z = z.
Proof.
  unfold GoInt.in_range, GoInt.wrap, GoInt.min_int, GoInt.max_int.
  intros Hz. rewrite Z.mod_small; lia.
Qed.

Lemma add_one_small z :
  GoInt.min_int <= z < GoInt.max_int -> GoInt.add z 1 = z + 1.
Proof.
  intros Hz. apply wrap_id.
  unfold GoInt.in_range, GoInt.min_int, GoInt.max_int in *. lia.
Qed.

Lemma wrap_add_l a b : GoInt.wrap (GoInt.wrap a + b) = GoInt.wrap (a + b).
Proof.
  unfold GoInt.wrap. f_equal.
  replace ((a + 2 ^ 63) mod 2 ^ 64 - 2 ^ 63 + b + 2 ^ 63)
    with ((a + 2 ^ 63) mod 2 ^ 64 + b) by lia.
  rewrite Zplus_mod_idemp_l. f_equal. lia.
Qed.

Lemma wrap_small_nat (n : nat) : (n < 3)%nat -> GoInt.wrap (Z.of_nat n) = Z.of_nat n.
Proof.
  intros Hn. apply wrap_id.
  unfold GoInt.in_range, GoInt.min_int, GoInt.max_int. lia.
Qed.

(** ** The customer directory *)

Lemma Get_result (mc : MemoryCustomers) (name : string) :
  snd (Get mc name) =
    match stored mc name with
    | Some r => (r, None)
    | None => (zeroCustomer, Some (no_such_customer name))
    end.
Proof.
  unfold Get, stored. destruct (ensure_map mc !! name); reflexivity.
Qed.

Lemma Get_receiver (mc : MemoryCustomers) (name : string) :
  fst (Get mc name) = {| Customers := Some (ensure_map mc) |}.
Proof.
  unfold Get. destruct (ensure_map mc !! name); reflexivity.
Qed.

Lemma stored_Get (mc : MemoryCustomers) (name n : string) :
  stored (fst (Get mc name)) n = stored mc n.
Proof. rewrite Get_receiver. reflexivity. Qed.

Lemma Get_allocated (mc : MemoryCustomers) (name : string) :
  is_Some (Customers mc) -> fst (Get mc name) = mc.
Proof.
  intros [m Hm]. rewrite Get_receiver. destruct mc as [o]. simpl in *.
  subst o. reflexivity.
Qed.

Lemma stored_Update (mc : MemoryCustomers) (r : Customer) (n : string) :
  stored (fst (Update mc r)) n =
    if decide (Name r = n) then Some r else stored mc n.
Proof. unfold stored, Update. simpl. apply lookup_insert. Qed.

(** C6. Whatever the directory holds: [Get] of a name that is not stored
    returns the zero record together with the "no such customer" error,
    and so does the pipeline's lookup activity; [Get] of a stored name
    returns the stored record and a nil error, and so does the activity. *)
Theorem Get_absent_fails_present_returns (g : Globals) (name : string) :
  (stored (Database g) name = None ->
     snd (Get (Database g) name)
       = (zeroCustomer, Some (no_such_customer name)) /\
     snd (activitiyFindCustomerByName name g)
       = (zeroCustomer, Some (no_such_customer name))) /\
  (forall r : Customer,
     stored (Database g) name = Some r ->
     snd (Get (Database g) name) = (r, None) /\
     snd (activitiyFindCustomerByName name g) = (r, None)).
Proof.
  assert (Hact : snd (activitiyFindCustomerByName name g)
                 = snd (Get (Database g) name)).
  { unfold activitiyFindCustomerByName.
    destruct (Get (Database g) name) as [db r]. reflexivity. }
  rewrite Hact, Get_result. split.
  - intros ->. split; reflexivity.
  - intros r ->. split; reflexivity.
Qed.

Lemma Get_absent_fails_present_returns_witness :
  snd (activitiyFindCustomerByName "alice" tavern)
    = (zeroCustomer, Some (GoError "no such customer: alice")) /\
  snd (Get (Database tavern) "bob") = (bob, None).
Proof.
  split.
  - destruct (Get_absent_fails_present_returns tavern "alice") as [Habs _].
    apply Habs. reflexivity.
  - destruct (Get_absent_fails_present_returns tavern "bob") as [_ Hpres].
    apply (Hpres bob). reflexivity.
Defined.

(** C7. [Update] returns a nil error for every directory and every
    record, and a [Get] of the record's name right after it returns
    exactly that record: the record is inserted when the name was absent
    and replaces the previous one otherwise. *)
Theorem Update_then_Get (mc : MemoryCustomers) (r : Customer) :
  snd (Update mc r) = None /\
  snd (Get (fst (Update mc r)) (Name r)) = (r, None) /\
  stored (fst (Update mc r)) (Name r) = Some r.
Proof.
  assert (Hs : stored (fst (Update mc r)) (Name r) = Some r).
  { rewrite stored_Update. case_decide; [reflexivity | congruence]. }
  split; [reflexivity |]. split; [| exact Hs].
  rewrite Get_result, Hs. reflexivity.
Qed.

(** ** The validation pipeline *)

Lemma same_view_refl g : same_view g g.
Proof. split; reflexivity. Qed.

Lemma same_view_trans g1 g2 g3 :
  same_view g1 g2 -> same_view g2 g3 -> same_view g1 g3.
Proof.
  intros [Hc Hs] [Hc' Hs']. split; [congruence |].
  intros n. rewrite Hs'. apply Hs.
Qed.

Lemma Find_same_view (name : string) (g : Globals) :
  same_view g (fst (activitiyFindCustomerByName name g)).
Proof.
  unfold activitiyFindCustomerByName.
  pose proof (stored_Get (Database g) name) as Hs.
  destruct (Get (Database g) name) as [db r]. simpl in *.
  split; [reflexivity | exact Hs].
Qed.

Lemma Find_allocated (name : string) (g : Globals) :
  is_Some (Customers (Database g)) ->
  fst (activitiyFindCustomerByName name g) = g.
Proof.
  intros Hal. unfold activitiyFindCustomerByName.
  pose proof (Get_allocated (Database g) name Hal) as Hg.
  destruct (Get (Database g) name) as [db r]. simpl in *. subst db.
  destruct g; reflexivity.
Qed.

Lemma ExecuteActivity_same_view {A : Type} (d : delivery)
    (act : Globals -> Globals * (A * option error)) (g : Globals) :
  same_view g (fst (act g)) -> same_view g (fst (ExecuteActivity d act g)).
Proof.
  intros Hact. destruct d; simpl.
  - destruct (act g) as [g' [a [e |]]]; exact Hact.
  - apply same_view_refl.
  - exact Hact.
Qed.

Lemma workflowProcessOrder_same_view (d1 d2 : delivery) (order : Order)
    (g : Globals) :
  same_view g (fst (workflowProcessOrder d1 d2 order g)).
Proof.
  unfold workflowProcessOrder.
  pose proof (ExecuteActivity_same_view d1
                (activitiyFindCustomerByName (By order)) g
                (Find_same_view (By order) g)) as H1.
  destruct (ExecuteActivity d1 (activitiyFindCustomerByName (By order)) g)
    as [g1 [out [e |]]]; simpl in *; [exact H1 |].
  set (act := fun g0 : Globals =>
                (g0, activityIsCustomerLegal (default zeroCustomer out))).
  pose proof (ExecuteActivity_same_view d2 act g1 (same_view_refl g1)) as H2.
  destruct (ExecuteActivity d2 act g1) as [g2 [o2 [e |]]]; simpl in *;
    exact (same_view_trans _ _ _ H1 H2).
Qed.

(** C5. The age gate returns [false] with the "not old enough" error
    exactly when the customer's age is below 18, and [true] with a nil
    error exactly when it is 18 or more; an order whose customer is on
    file and whose two activities are delivered ends with the gate's
    error. *)
Theorem activityIsCustomerLegal_gate (visitor : Customer) :
  (Age visitor < 18 <->
     activityIsCustomerLegal visitor = (false, Some not_old_enough)) /\
  (18 <= Age visitor <-> activityIsCustomerLegal visitor = (true, None)) /\
  (forall (order : Order) (g : Globals),
     stored (Database g) (By order) = Some visitor ->
     snd (workflowProcessOrder Delivered Delivered order g)
       = snd (activityIsCustomerLegal visitor)).
Proof.
  unfold activityIsCustomerLegal. split; [| split].
  - destruct (Z.ltb_spec (Age visitor) 18); split; intros; try lia;
      try reflexivity; discriminate.
  - destruct (Z.ltb_spec (Age visitor) 18); split; intros; try lia;
      try reflexivity; discriminate.
  - intros order g Hst.
    unfold workflowProcessOrder, ExecuteActivity, activitiyFindCustomerByName.
    pose proof (Get_result (Database g) (By order)) as Hr.
    rewrite Hst in Hr.
    destruct (Get (Database g) (By order)) as [db r]. simpl in Hr. subst r.
    simpl. unfold activityIsCustomerLegal.
    destruct (Age visitor <? 18); reflexivity.
Qed.

Lemma activityIsCustomerLegal_gate_witness :
  activityIsCustomerLegal tim17 = (false, Some not_old_enough) /\
  activityIsCustomerLegal tim18 = (true, None) /\
  snd (workflowProcessOrder Delivered Delivered
         {| Item := "ale"; Price := 5; By := "tim" |} tavern)
    = Some not_old_enough.
Proof.
  split; [| split].
  - apply (activityIsCustomerLegal_gate tim17). simpl. lia.
  - apply (activityIsCustomerLegal_gate tim18). simpl. lia.
  - destruct (activityIsCustomerLegal_gate tim17) as (_ & _ & Hord).
    rewrite (Hord {| Item := "ale"; Price := 5; By := "tim" |} tavern);
      reflexivity.
Defined.

(** C8. The lookup activity, and the whole order pipeline built from it
    and the age gate, leave the globals indistinguishable to any caller,
    whatever the input and whether they succeed or fail: every name reads
    the same record before and after.  On a directory whose map is
    allocated (as [NewMemoryCustomers] makes it) the lookup leaves the
    globals identical; the age gate has no access to them at all. *)
Theorem validation_leaves_directory_unchanged (d1 d2 : delivery)
    (name : string) (order : Order) (g : Globals) :
  same_view g (fst (activitiyFindCustomerByName name g)) /\
  same_view g (fst (workflowProcessOrder d1 d2 order g)) /\
  (is_Some (Customers (Database g)) ->
     fst (activitiyFindCustomerByName name g) = g /\
     fst (workflowProcessOrder d1 d2 order g) = g).
Proof.
  split; [apply Find_same_view |].
  split; [apply workflowProcessOrder_same_view |].
  intros Hal. split; [apply Find_allocated; exact Hal |].
  unfold workflowProcessOrder.
  pose proof (Find_allocated (By order) g Hal) as Hf.
  destruct d1; simpl.
  - destruct (activitiyFindCustomerByName (By order) g) as [g1 [c [e |]]];
      simpl in *; subst g1; [reflexivity |].
    destruct d2; simpl; try reflexivity.
    destruct (activityIsCustomerLegal c) as [b [e |]]; reflexivity.
  - reflexivity.
  - exact Hf.
Qed.

Lemma validation_leaves_directory_unchanged_witness :
  fst (workflowProcessOrder Delivered Delivered
         {| Item := "ale"; Price := 5; By := "tim" |} tavern) = tavern /\
  fst (activitiyFindCustomerByName "alice" tavern) = tavern.
Proof.
  destruct (validation_leaves_directory_unchanged Delivered Delivered "alice"
              {| Item := "ale"; Price := 5; By := "tim" |} tavern)
    as (_ & _ & Hsame).
  destruct Hsame as [Hfind Hproc].
  - simpl. eexists. reflexivity.
  - split; [exact Hproc | exact Hfind].
Defined.

(** ** The greeting pipeline *)

(** A run of [workflowGreetings] that returns a nil error had both of its
    activities delivered, and its effect is that of the two activity
    bodies in sequence. *)
Lemma workflowGreetings_success (d1 d2 : delivery) (now : Time)
    (visitor : Customer) (g g' : Globals) (out : Customer) :
  workflowGreetings d1 d2 now visitor g = (g', (out, None)) ->
  out = {| Name := Name visitor; LastVisit := now;
           TimesVisited := GoInt.add (visits (Database g) (Name visitor)) 1;
           Age := Age visitor |} /\
  stored (Database g') (Name visitor) = Some out /\
  (forall n : string,
     n <> Name visitor -> stored (Database g') n = stored (Database g) n).
Proof.
  unfold workflowGreetings. destruct d1; simpl; try discriminate.
  unfold activityGreetings.
  pose proof (Get_result (Database g) (Name visitor)) as Hres.
  pose proof (stored_Get (Database g) (Name visitor)) as Hst.
  destruct (Get (Database g) (Name visitor)) as [db [old err]].
  simpl in Hres, Hst. simpl.
  destruct d2; simpl; try discriminate.
  intros Heq. injection Heq as Hg Hout. subst g' out.
  assert (Hold : TimesVisited old = visits (Database g) (Name visitor)).
  { unfold visits. destruct (stored (Database g) (Name visitor));
      injection Hres as -> _; reflexivity. }
  rewrite Hold. split; [reflexivity |]. simpl. split.
  - unfold stored. simpl. apply lookup_insert_eq.
  - intros n Hn. rewrite <- Hst. unfold stored.
    apply (lookup_insert_ne (ensure_map db)). congruence.
Qed.




(** Runs are taken one at a time above.  When the activities of several
    greetings of one name interleave, a store can overwrite a later one:
    here the count on file reads 4, 4, 5, 5, 6 and then 5. *)
Lemma interleaved_greetings_lose_updates :
  counts_along "bob"
    [RunsGreetings 1 2000 bob; RunsGreetings 2 2001 bob; RunsStore 2;
     RunsGreetings 3 2002 bob; RunsStore 3; RunsStore 1]
    {| floor_globals := tavern; holding := ∅ |}
  = Some [4; 4; 5; 5; 6; 5].
Proof. vm_compute. reflexivity. Qed.

(** C10. Two successful greetings from the same globals for visitors with
    the same name and age store and return records with the same visit
    count, whatever [TimesVisited] and [LastVisit] the callers supplied:
    that count is read off the directory's record for the name. *)
Theorem workflowGreetings_ignores_supplied_visits
    (d1 d2 d1' d2' : delivery) (now now' : Time) (v v' : Customer)
    (g g1 g2 : Globals) (out1 out2 : Customer) :
  Name v = Name v' ->
  Age v = Age v' ->
  workflowGreetings d1 d2 now v g = (g1, (out1, None)) ->
  workflowGreetings d1' d2' now' v' g = (g2, (out2, None)) ->
  TimesVisited out1 = TimesVisited out2 /\
  visits (Database g1) (Name v) = visits (Database g2) (Name v) /\
  stored (Database g1) (Name v) = Some out1 /\
  stored (Database g2) (Name v) = Some out2 /\
  TimesVisited out1 = GoInt.add (visits (Database g) (Name v)) 1.
Proof.
  intros Hname Hage Hrun1 Hrun2.
  destruct (workflowGreetings_success _ _ _ _ _ _ _ Hrun1) as (Ho1 & Hs1 & _).
  destruct (workflowGreetings_success _ _ _ _ _ _ _ Hrun2) as (Ho2 & Hs2 & _).
  rewrite <- Hname in Ho2, Hs2.
  assert (Ht : TimesVisited out1 = TimesVisited out2)
    by (rewrite Ho1, Ho2; reflexivity).
  split; [exact Ht |]. split.
  - unfold visits. rewrite Hs1, Hs2. exact Ht.
  - split; [exact Hs1 |]. split; [exact Hs2 |]. rewrite Ho1. reflexivity.
Qed.

Lemma workflowGreetings_ignores_supplied_visits_witness :
  TimesVisited
    (fst (snd (workflowGreetings Delivered Delivered 2000
                 {| Name := "bob"; LastVisit := 0; TimesVisited := 0;
                    Age := 30 |} tavern)))
  = TimesVisited
      (fst (snd (workflowGreetings Delivered Delivered 3000
                   {| Name := "bob"; LastVisit := 77; TimesVisited := 900;
                      Age := 30 |} tavern))).
Proof.
  eapply (workflowGreetings_ignores_supplied_visits
            Delivered Delivered Delivered Delivered 2000 3000
            {| Name := "bob"; LastVisit := 0; TimesVisited := 0; Age := 30 |}
            {| Name := "bob"; LastVisit := 77; TimesVisited := 900;
               Age := 30 |}
            tavern).
  - reflexivity.
  - reflexivity.
  - vm_compute. reflexivity.
  - vm_compute. reflexivity.
Defined.

(** ** The signal loop: invariant *)

Lemma wrap_ge_3 (n : nat) :
  MaxSignalsAmount <= GoInt.wrap (Z.of_nat n) -> (3 <= n)%nat.
Proof.
  unfold MaxSignalsAmount. intros Hw.
  destruct (le_lt_dec 3 n) as [Hle | Hlt]; [exact Hle |].
  rewrite wrap_small_nat in Hw by exact Hlt. lia.
Qed.

Lemma in_flight_on_receive (order : Order) (rest : list Order) (s : State)
    (c : nat) :
  in_flight (on_receive order rest s) c = true ->
  in_flight s c = true \/ c = length (children s).
Proof.
  unfold in_flight. simpl.
  destruct (lt_eq_lt_dec c (length (children s))) as [[Hlt | Heq] | Hgt].
  - rewrite lookup_app_l by exact Hlt. auto.
  - auto.
  - rewrite lookup_ge_None_2; [discriminate |].
    rewrite length_app. simpl. lia.
Qed.

Lemma in_flight_close (c c' : nat) (order : Order) (result : option error)
    (l : list Child) :
  match <[c := {| child_order := order;
                  child_status := ChildClosed result |}]> l !! c' with
  | Some ch => running ch
  | None => false
  end = true ->
  c' <> c /\ match l !! c' with
             | Some ch => running ch
             | None => false
             end = true.
Proof.
  destruct (decide (c' = c)) as [-> | Hne].
  - destruct (lt_dec c (length l)) as [Hlt | Hge].
    + rewrite list_lookup_insert_eq by exact Hlt. discriminate.
    + rewrite list_insert_ge by lia. intros Hrun.
      rewrite lookup_ge_None_2 in Hrun by lia. discriminate.
  - rewrite list_lookup_insert_ne by congruence. auto.
Qed.

Lemma Inv_start (gen : nat) (chan : list Order) (g : Globals) :
  Inv (WorkflowOrder_start gen chan g).
Proof.
  constructor; simpl; try discriminate; try reflexivity.
  intros _ H3. unfold dispatched in H3. simpl in H3. lia.
Qed.

(** Closes the invariant fields that carry over unchanged, and the
    in-flight field when no child is running before the move. *)
Ltac carry_over Hnone :=
  unfold dispatched in *; simpl; auto;
  try discriminate;
  try (let c := fresh "c" in
       let Hc := fresh "Hc" in
       intros c Hc; unfold in_flight in Hc, Hnone; simpl in Hc;
       rewrite Hnone in Hc; discriminate Hc).

Lemma Inv_Tick (s s' : State) :
  Inv s -> WorkflowOrder_step s = Some s' -> Inv s'.
Proof.
  intros [Hcnt Hdef Hres Hret Hfl Harm]. unfold WorkflowOrder_step.
  destruct (pc s) eqn:Hpc.
  - (* loop head *)
    intros [= <-].
    assert (Hnr : restartWorkflow s = false).
    { destruct (restartWorkflow s); [| reflexivity].
      destruct Hres as [_ [? | ?]]; [reflexivity | congruence ..]. }
    assert (Hnone : forall c, in_flight s c = false).
    { intros c. destruct (in_flight s c) eqn:Hc; [| reflexivity].
      apply Hfl in Hc. congruence. }
    constructor; carry_over Hnone.
    + destruct (Z.leb_spec MaxSignalsAmount (signalCount s)) as [Hle | _];
        [| exact Hdef].
      intros _. apply wrap_ge_3. rewrite <- Hcnt. exact Hle.
    + rewrite Hnr. discriminate.
    + intros _ H3.
      destruct (Z.leb_spec MaxSignalsAmount (signalCount s)) as [_ | Hlt];
        [reflexivity |].
      apply Harm; [| exact H3]. right.
      destruct (decide (length (children s) = 3%nat)) as [E | NE]; [| lia].
      rewrite Hcnt, E in Hlt. vm_compute in Hlt. discriminate Hlt.
  - (* Select *)
    unfold select.
    assert (Hnr : restartWorkflow s = false).
    { destruct (restartWorkflow s); [| reflexivity].
      destruct Hres as [_ [? | ?]]; [reflexivity | congruence ..]. }
    assert (Hnone : forall c, in_flight s c = false).
    { intros c. destruct (in_flight s c) eqn:Hc; [| reflexivity].
      apply Hfl in Hc. congruence. }
    destruct (signalChan s) as [| order rest].
    + destruct (hasDefault s) eqn:Hd; [| discriminate].
      intros [= <-]. constructor; carry_over Hnone.
    + intros [= <-]. constructor; unfold dispatched in *; simpl.
      * rewrite Hcnt. unfold GoInt.add. rewrite wrap_add_l.
        f_equal. rewrite length_app. simpl. lia.
      * intros Hd. apply Hdef in Hd. rewrite length_app. lia.
      * rewrite Hnr. discriminate.
      * discriminate.
      * intros c Hc. apply in_flight_on_receive in Hc.
        destruct Hc as [Hc | ->]; [| reflexivity].
        rewrite Hnone in Hc. discriminate.
      * rewrite length_app. simpl. intros [? | H4]; [discriminate |].
        intros _. apply Harm; [left; reflexivity | lia].
  - (* waiter.Get *)
    unfold waiter_Get.
    destruct (children s !! c) as [[order [| result]] |] eqn:Hch;
      try discriminate.
    intros [= <-].
    assert (Hnone : forall c', in_flight s c' = false).
    { intros c'. destruct (in_flight s c') eqn:Hc; [| reflexivity].
      pose proof (Hfl _ Hc) as Hp. injection Hp as <-.
      unfold in_flight in Hc. rewrite Hch in Hc. discriminate. }
    constructor; carry_over Hnone.
    + intros Hr. destruct (Hres Hr) as [? [? | ?]]; congruence.
    + intros [? | H4]; [discriminate |]. intros H3. apply Harm; auto.
  - (* after Select *)
    assert (Hnone : forall c, in_flight s c = false).
    { intros c. destruct (in_flight s c) eqn:Hc; [| reflexivity].
      apply Hfl in Hc. congruence. }
    destruct (restartWorkflow s) eqn:Hr; intros [= <-];
      constructor; carry_over Hnone.
    + intros _. split; [apply Hres; reflexivity | auto].
    + intros [? | H4]; [discriminate |]. intros H3. apply Harm; auto.
    + rewrite Hr. discriminate.
    + intros [? | H4]; [discriminate |]. intros H3. apply Harm; auto.
  - discriminate.
Qed.

Lemma Inv_Signal (order : Order) (s : State) :
  Inv s -> Inv (deliver_signal order s).
Proof.
  intros [Hcnt Hdef Hres Hret Hfl Harm]. constructor; auto.
Qed.

Lemma Inv_Close (c : nat) (fate : ChildFate) (s s' : State) :
  Inv s -> close_child c fate s = Some s' -> Inv s'.
Proof.
  intros [Hcnt Hdef Hres Hret Hfl Harm]. unfold close_child.
  destruct (children s !! c) as [[order [| result]] |] eqn:Hch;
    try discriminate.
  destruct (match fate with
            | Runs d1 d2 => workflowProcessOrder d1 d2 order (globals s)
            | Fails e => (globals s, Some e)
            end) as [g result].
  intros [= <-].
  constructor; unfold dispatched in *; simpl;
    rewrite ?length_insert; auto.
  intros c' Hc'. unfold in_flight in Hc'. simpl in Hc'.
  apply in_flight_close in Hc'. destruct Hc' as [_ Hc'].
  apply Hfl. exact Hc'.
Qed.

Lemma Inv_NewRun (s s' : State) : continue_as_new s = Some s' -> Inv s'.
Proof.
  unfold continue_as_new. destruct (pc s); try discriminate.
  intros [= <-]. apply Inv_start.
Qed.

Lemma Inv_step (e : Event) (s s' : State) :
  Inv s -> step e s = Some s' -> Inv s'.
Proof.
  intros HI. destruct e; simpl.
  - apply Inv_Tick. exact HI.
  - intros [= <-]. apply Inv_Signal. exact HI.
  - apply Inv_Close. exact HI.
  - apply Inv_NewRun.
Qed.

Lemma Inv_exec (es : list Event) (s s' : State) :
  Inv s -> exec es s = Some s' -> Inv s'.
Proof.
  revert s. induction es as [| e es IH]; simpl; intros s HI.
  - intros [= <-]. exact HI.
  - destruct (step e s) as [s1 |] eqn:Hstep; [| discriminate].
    apply IH. exact (Inv_step e s s1 HI Hstep).
Qed.

Lemma Inv_reachable (s : State) : reachable s -> Inv s.
Proof.
  intros (g & es & Hexec).
  exact (Inv_exec es (init g) s (Inv_start 0 [] g) Hexec).
Qed.

Lemma exec_app (es1 es2 : list Event) (s : State) :
  exec (es1 ++ es2) s =
    match exec es1 s with
    | Some s1 => exec es2 s1
    | None => None
    end.
Proof.
  revert s. induction es1 as [| e es1 IH]; simpl; intros s; [reflexivity |].
  destruct (step e s); [apply IH | reflexivity].
Qed.

Lemma reachable_exec (es : list Event) (s s' : State) :
  reachable s -> exec es s = Some s' -> reachable s'.
Proof.
  intros (g & es0 & H0) Hexec. exists g, (es0 ++ es).
  rewrite exec_app, H0. exact Hexec.
Qed.

Lemma all_closed_no_flight (s : State) :
  (forall c : nat, in_flight s c = false) -> all_closed s = true.
Proof.
  unfold all_closed, in_flight. intros Hnone.
  apply forallb_forall. intros ch Hin.
  apply list_elem_of_In, list_elem_of_lookup in Hin. destruct Hin as [c Hc].
  specialize (Hnone c). rewrite Hc in Hnone. rewrite Hnone. reflexivity.
Qed.

(** While a child is running, the coroutine is parked in that child's
    [waiter.Get]: it cannot move, the run cannot be continued as new, and
    no other child can close. *)
Lemma parked_while_in_flight (s : State) (c : nat) :
  Inv s -> in_flight s c = true ->
  pc s = InGet c /\
  step Tick s = None /\
  step NewRun s = None /\
  (forall c', in_flight s c' = true -> c' = c).
Proof.
  intros HI Hc. pose proof (I_inflight s HI c Hc) as Hpc.
  split; [exact Hpc |]. split; [| split].
  - simpl. unfold WorkflowOrder_step, waiter_Get. rewrite Hpc.
    unfold in_flight in Hc.
    destruct (children s !! c) as [[order [| result]] |];
      [reflexivity | discriminate | reflexivity].
  - simpl. unfold continue_as_new. rewrite Hpc. reflexivity.
  - intros c' Hc'. apply (I_inflight s HI) in Hc'. congruence.
Qed.

(** Along any continuation without a [Close], a running child stays
    running, nothing is taken from the signal channel and no sub-task is
    dispatched. *)
Lemma nothing_received_before_close (es : list Event) (s s' : State)
    (c : nat) :
  Inv s -> in_flight s c = true ->
  forallb no_close es = true ->
  exec es s = Some s' ->
  in_flight s' c = true /\
  children s' = children s /\
  generation s' = generation s /\
  exists more : list Order, signalChan s' = signalChan s ++ more.
Proof.
  revert s. induction es as [| e es IH]; simpl; intros s HI Hc Hnc Hexec.
  - injection Hexec as <-. repeat split; auto. exists []. symmetry.
    apply app_nil_r.
  - apply andb_true_iff in Hnc. destruct Hnc as [He Hes].
    destruct (parked_while_in_flight s c HI Hc) as (_ & Htick & Hnew & _).
    destruct e; simpl in He; try discriminate.
    + simpl in Htick. simpl in Hexec. rewrite Htick in Hexec. discriminate.
    + simpl in Hexec.
      destruct (IH (deliver_signal order s) (Inv_Signal order s HI) Hc Hes
                  Hexec) as (Hc' & Hch & Hgen & more & Hchan).
      repeat split; auto. exists (order :: more). rewrite Hchan. simpl.
      rewrite <- app_assoc. reflexivity.
    + simpl in Hnew. simpl in Hexec. rewrite Hnew in Hexec. discriminate.
Qed.

(** ** The signal loop: running, draining, restarting *)

(** C1, as the code has it. In every reachable state whose run has
    received at most two signals there is no default case, the restart
    flag is unset and the run has not returned, so it cannot be continued
    as new.  From the third receipt on, every [Select] of the run has the
    default case; that [Select] takes the default (which sets the restart
    flag) only when no signal is buffered, and otherwise receives the
    buffered signal and dispatches one more sub-task in the same run. *)
Theorem WorkflowOrder_running_then_draining (s : State) :
  reachable s ->
  ((dispatched s <= 2)%nat ->
     hasDefault s = false /\ restartWorkflow s = false /\
     pc s <> Returned /\ step NewRun s = None) /\
  (pc s = AtSelect -> (3 <= dispatched s)%nat ->
     hasDefault s = true /\
     step Tick s =
       match signalChan s with
       | [] => Some (on_default s)
       | order :: rest => Some (on_receive order rest s)
       end).
Proof.
  intros Hreach. pose proof (Inv_reachable s Hreach) as HI. split.
  - intros Hle.
    assert (Hd : hasDefault s = false).
    { destruct (hasDefault s) eqn:Hd; [| reflexivity].
      pose proof (I_default s HI Hd). lia. }
    assert (Hr : restartWorkflow s = false).
    { destruct (restartWorkflow s) eqn:Hr; [| reflexivity].
      destruct (I_restart s HI Hr) as [Hd' _]. congruence. }
    assert (Hp : pc s <> Returned).
    { intros Hp. pose proof (I_returned s HI Hp). congruence. }
    repeat split; auto.
    simpl. unfold continue_as_new. destruct (pc s); congruence.
  - intros Hpc H3.
    assert (Hd : hasDefault s = true)
      by (apply (I_armed s HI); [left; exact Hpc | exact H3]).
    split; [exact Hd |].
    simpl. unfold WorkflowOrder_step, select. rewrite Hpc, Hd.
    destruct (signalChan s); reflexivity.
Qed.

Lemma WorkflowOrder_running_then_draining_witness :
  exists s : State,
    exec three_served_one_queued (init tavern) = Some s /\
    pc s = AtSelect /\ dispatched s = 3%nat /\
    hasDefault s = true /\
    exists order rest,
      signalChan s = order :: rest /\
      step Tick s = Some (on_receive order rest s).
Proof.
  eexists. split; [vm_compute; reflexivity |].
  split; [reflexivity |]. split; [reflexivity |].
  match goal with
  | |- hasDefault ?s = true /\ _ =>
      destruct (WorkflowOrder_running_then_draining s) as [_ H3]
  end.
  - exists tavern, three_served_one_queued. vm_compute. reflexivity.
  - destruct H3 as [Hd Hstep]; [reflexivity | vm_compute; lia |].
    split; [exact Hd |]. eexists. eexists.
    split; [reflexivity | exact Hstep].
Defined.

(** C1 as stated fails: with four orders buffered before the first is
    served, the run that receives them dispatches a fourth sub-task. *)
Lemma fourth_order_dispatched_in_same_run :
  ~ (forall s : State, reachable s -> (dispatched s <= 3)%nat).
Proof.
  intros Hclaim.
  assert (Hex : exists s : State,
             exec four_orders_queued (init tavern) = Some s /\
             generation s = 0%nat /\ dispatched s = 4%nat).
  { eexists. split; [vm_compute; reflexivity |]. split; reflexivity. }
  destruct Hex as (s & Hexec & _ & Hfour).
  assert (Hreach : reachable s) by (exists tavern, four_orders_queued; exact Hexec).
  specialize (Hclaim s Hreach). lia.
Qed.

(** C2. Whatever the state of the run that is continued as new, and in
    particular whatever its counter, the new run starts at the loop head
    with [signalCount] 0, nothing dispatched, the restart flag unset and
    no default case; and in every state that follows, the counter is the
    number of signals received by the run then current (in [int]
    arithmetic). *)
Theorem continue_as_new_resets_counter (s s' : State) :
  step NewRun s = Some s' ->
  signalCount s' = 0 /\
  dispatched s' = 0%nat /\
  restartWorkflow s' = false /\
  hasDefault s' = false /\
  pc s' = AtLoop /\
  generation s' = S (generation s) /\
  (forall (es : list Event) (s'' : State),
     exec es s' = Some s'' ->
     signalCount s'' = GoInt.wrap (Z.of_nat (dispatched s''))).
Proof.
  intros Hstep. pose proof (Inv_NewRun s s' Hstep) as HI.
  simpl in Hstep. unfold continue_as_new in Hstep.
  destruct (pc s); try discriminate. injection Hstep as <-.
  repeat split; try reflexivity.
  intros es s'' Hexec. apply I_count. exact (Inv_exec es _ s'' HI Hexec).
Qed.

Lemma continue_as_new_resets_counter_witness :
  exists s s' : State,
    exec four_orders_queued (init tavern) = Some s /\
    signalCount s = 4 /\
    exec [Close 3 (Fails child_timeout); Tick; Tick; Tick; Tick; Tick; NewRun] s
      = Some s' /\
    signalCount s' = 0 /\ generation s' = 1%nat.
Proof.
  eexists. eexists. split; [vm_compute; reflexivity |].
  split; [reflexivity |]. split; [vm_compute; reflexivity |].
  match goal with
  | |- signalCount ?s' = 0 /\ _ =>
      destruct (continue_as_new_resets_counter
                  (default s'
                     (exec (four_orders_queued
                              ++ [Close 3 (Fails child_timeout); Tick; Tick; Tick; Tick;
                                  Tick])
                        (init tavern))) s')
        as (Hzero & _ & _ & _ & _ & Hgen & _)
  end.
  - vm_compute. reflexivity.
  - split; [exact Hzero | exact Hgen].
Defined.

(** Once the running child closes, [waiter.Get] returns and the next turn
    of the loop receives the signal at the head of the channel. *)
Lemma received_after_close (s : State) (c : nat) (fate : ChildFate)
    (order : Order) (rest : list Order) :
  Inv s -> in_flight s c = true -> signalChan s = order :: rest ->
  exists s' : State,
    exec [Close c fate; Tick; Tick; Tick; Tick] s = Some s' /\
    dispatched s' = S (dispatched s) /\
    signalChan s' = rest /\
    in_flight s' c = false.
Proof.
  intros HI Hc Hchan.
  pose proof (I_inflight s HI c Hc) as Hpc.
  assert (Hr : restartWorkflow s = false).
  { destruct (restartWorkflow s) eqn:Hr; [| reflexivity].
    destruct (I_restart s HI Hr) as [_ [? | ?]]; congruence. }
  unfold in_flight in Hc.
  destruct (children s !! c) as [[o [| result]] |] eqn:Hch;
    try discriminate.
  assert (Hlt : (c < length (children s))%nat)
    by (apply lookup_lt_is_Some; eauto).
  simpl. unfold close_child. rewrite Hch.
  destruct (match fate with
            | Runs d1 d2 => workflowProcessOrder d1 d2 o (globals s)
            | Fails e => (globals s, Some e)
            end) as [g result].
  unfold WorkflowOrder_step at 1. simpl. rewrite Hpc.
  unfold waiter_Get. simpl. rewrite list_lookup_insert_eq by exact Hlt.
  unfold WorkflowOrder_step at 1. simpl. rewrite Hr.
  unfold WorkflowOrder_step at 1. simpl.
  unfold WorkflowOrder_step at 1. simpl. unfold select. simpl.
  rewrite Hchan. eexists. split; [reflexivity |].
  unfold dispatched, in_flight. simpl.
  rewrite length_app, length_insert. simpl.
  split; [lia |]. split; [reflexivity |].
  rewrite lookup_app_l by (rewrite length_insert; exact Hlt).
  rewrite list_lookup_insert_eq by exact Hlt. reflexivity.
Qed.

(** C3, as the code has it. While a sub-task dispatched by the loop is
    running, the loop is parked in that sub-task's [waiter.Get] and cannot
    move; along every continuation in which the sub-task has not closed
    it is still running, no signal has been taken from the channel (new
    signals are only buffered behind the old ones) and no further sub-task
    has been dispatched.  A buffered signal is received in the turn of
    the loop that follows the close of the running sub-task. *)
Theorem WorkflowOrder_waits_for_child (s : State) (c : nat) :
  reachable s -> in_flight s c = true ->
  pc s = InGet c /\
  step Tick s = None /\
  (forall (es : list Event) (s' : State),
     forallb no_close es = true -> exec es s = Some s' ->
     in_flight s' c = true /\ children s' = children s /\
     exists more : list Order, signalChan s' = signalChan s ++ more) /\
  (forall (fate : ChildFate) (order : Order) (rest : list Order),
     signalChan s = order :: rest ->
     exists s' : State,
       exec [Close c fate; Tick; Tick; Tick; Tick] s = Some s' /\
       dispatched s' = S (dispatched s) /\ signalChan s' = rest /\
       in_flight s' c = false).
Proof.
  intros Hreach Hc. pose proof (Inv_reachable s Hreach) as HI.
  destruct (parked_while_in_flight s c HI Hc) as (Hpc & Htick & _ & _).
  split; [exact Hpc |]. split; [exact Htick |]. split.
  - intros es s' Hnc Hexec.
    destruct (nothing_received_before_close es s s' c HI Hc Hnc Hexec)
      as (Hc' & Hch & _ & Hmore).
    auto.
  - intros fate order rest Hchan.
    exact (received_after_close s c fate order rest HI Hc Hchan).
Qed.

Lemma WorkflowOrder_waits_for_child_witness :
  exists s : State,
    exec second_order_arrives (init tavern) = Some s /\
    in_flight s 0 = true /\
    signalChan s = [mead] /\
    step Tick s = None.
Proof.
  eexists. split; [vm_compute; reflexivity |].
  split; [reflexivity |]. split; [reflexivity |].
  match goal with
  | |- step Tick ?s = None =>
      destruct (WorkflowOrder_waits_for_child s 0) as (_ & Htick & _)
  end.
  - exists tavern, second_order_arrives. vm_compute. reflexivity.
  - reflexivity.
  - exact Htick.
Defined.

(** C3 as stated fails: when a second order arrives while the child of
    the first is running, no continuation in which that child has not
    closed receives it. *)
Lemma second_signal_waits_for_first_child :
  ~ (forall (s : State) (c : nat) (order : Order) (rest : list Order),
       reachable s -> in_flight s c = true ->
       signalChan s = order :: rest ->
       exists (es : list Event) (s' : State),
         forallb no_close es = true /\ exec es s = Some s' /\
         (dispatched s < dispatched s')%nat).
Proof.
  intros Hclaim.
  assert (Hex : exists s : State,
             exec second_order_arrives (init tavern) = Some s /\
             in_flight s 0 = true /\ signalChan s = [mead]).
  { eexists. split; [vm_compute; reflexivity |]. split; reflexivity. }
  destruct Hex as (s & Hexec & Hc & Hchan).
  assert (Hreach : reachable s)
    by (exists tavern, second_order_arrives; exact Hexec).
  destruct (Hclaim s 0%nat mead [] Hreach Hc Hchan)
    as (es & s' & Hnc & Hexec' & Hmore).
  destruct (nothing_received_before_close es s s' 0
              (Inv_reachable s Hreach) Hc Hnc Hexec') as (_ & Hch & _).
  unfold dispatched in Hmore. rewrite Hch in Hmore. lia.
Qed.

(** C4. In every reachable state in which the restart flag is set or the
    run has returned its continue-as-new error (the only states from
    which the run can be continued as new), every sub-task dispatched by
    the run has closed, with success or with failure. *)
Theorem restart_only_after_children_closed (s : State) :
  reachable s ->
  restartWorkflow s = true \/ pc s = Returned \/ is_Some (step NewRun s) ->
  all_closed s = true /\
  (forall c : nat, in_flight s c = false) /\
  (forall (c : nat) (ch : Child),
     children s !! c = Some ch ->
     exists result : option error, child_status ch = ChildClosed result).
Proof.
  intros Hreach Hrestart. pose proof (Inv_reachable s Hreach) as HI.
  assert (Hpc : pc s = AfterSelect \/ pc s = Returned).
  { destruct Hrestart as [Hr | [Hp | [s' Hs']]].
    - apply (I_restart s HI Hr).
    - right. exact Hp.
    - right. simpl in Hs'. unfold continue_as_new in Hs'.
      destruct (pc s); try discriminate. reflexivity. }
  assert (Hnone : forall c : nat, in_flight s c = false).
  { intros c. destruct (in_flight s c) eqn:Hc; [| reflexivity].
    pose proof (I_inflight s HI c Hc). destruct Hpc; congruence. }
  split; [apply all_closed_no_flight; exact Hnone |].
  split; [exact Hnone |].
  intros c ch Hch. specialize (Hnone c). unfold in_flight in Hnone.
  rewrite Hch in Hnone. unfold running in Hnone.
  destruct (child_status ch) as [| result]; [discriminate | eauto].
Qed.

Lemma restart_only_after_children_closed_witness :
  exists s : State,
    exec three_orders_then_restart (init tavern) = Some s /\
    pc s = Returned /\ dispatched s = 3%nat /\ all_closed s = true.
Proof.
  eexists. split; [vm_compute; reflexivity |].
  split; [reflexivity |]. split; [reflexivity |].
  match goal with
  | |- all_closed ?s = true =>
      destruct (restart_only_after_children_closed s) as (Hall & _)
  end.
  - exists tavern, three_orders_then_restart. vm_compute. reflexivity.
  - right. left. reflexivity.
  - exact Hall.
Defined.

(** * Further properties *)

(** ** The customer directory under sequences of calls *)

Lemma ensure_map_allocated (m : gmap string Customer) :
  ensure_map {| Customers := Some m |} = m.
Proof. reflexivity. Qed.

Lemma stored_apply_updates (rs : list Customer) (mc : MemoryCustomers)
    (name : string) :
  stored (apply_updates rs mc) name = latest name rs (stored mc name).
Proof.
  revert mc. induction rs as [| r rs IH]; intros mc; [reflexivity |].
  change (apply_updates (r :: rs) mc)
    with (apply_updates rs (fst (Update mc r))).
  rewrite IH, stored_Update. reflexivity.
Qed.

(** X1. After any sequence of [Update] calls, [Get] of a name returns the
    last record of the sequence that carries that name; when the sequence
    has none it returns what was stored before, and the "no such
    customer" error when nothing was. *)
Theorem Get_after_updates (rs : list Customer) (mc : MemoryCustomers)
    (name : string) :
  stored (apply_updates rs mc) name = latest name rs (stored mc name) /\
  snd (Get (apply_updates rs mc) name) =
    match latest name rs (stored mc name) with
    | Some r => (r, None)
    | None => (zeroCustomer, Some (no_such_customer name))
    end.
Proof.
  split; [apply stored_apply_updates |].
  rewrite Get_result, stored_apply_updates. reflexivity.
Qed.

(** X2. [Update] of a record leaves the record stored under every other
    name as it was, and a [Get] of another name returns what it returned
    before. *)
Theorem Update_leaves_other_names (mc : MemoryCustomers) (r : Customer)
    (n : string) :
  n <> Name r ->
  stored (fst (Update mc r)) n = stored mc n /\
  snd (Get (fst (Update mc r)) n) = snd (Get mc n).
Proof.
  intros Hn.
  assert (Hst : stored (fst (Update mc r)) n = stored mc n).
  { rewrite stored_Update. case_decide; [congruence | reflexivity]. }
  split; [exact Hst |]. rewrite !Get_result, Hst. reflexivity.
Qed.

Lemma Update_leaves_other_names_witness :
  snd (Get (fst (Update (Database tavern) tim18)) "bob") = (bob, None).
Proof.
  destruct (Update_leaves_other_names (Database tavern) tim18 "bob")
    as [_ Hget].
  - simpl. discriminate.
  - rewrite Hget. reflexivity.
Defined.

(** X3. The last writer wins: two [Update] calls for the same name leave
    the directory exactly as the second call alone would. *)
Theorem Update_last_writer_wins (mc : MemoryCustomers) (r1 r2 : Customer) :
  Name r1 = Name r2 ->
  fst (Update (fst (Update mc r1)) r2) = fst (Update mc r2).
Proof.
  intros Hname. unfold Update. simpl. rewrite ensure_map_allocated.
  rewrite Hname, insert_insert_eq. reflexivity.
Qed.

Lemma Update_last_writer_wins_witness :
  fst (Update (fst (Update NewMemoryCustomers tim17)) tim18)
  = fst (Update NewMemoryCustomers tim18).
Proof.
  apply (Update_last_writer_wins NewMemoryCustomers tim17 tim18).
  reflexivity.
Defined.

(** X4. [Update] calls for two different names commute: either order
    leaves the same directory. *)
Theorem Update_commutes (mc : MemoryCustomers) (r1 r2 : Customer) :
  Name r1 <> Name r2 ->
  fst (Update (fst (Update mc r1)) r2) = fst (Update (fst (Update mc r2)) r1).
Proof.
  intros Hname. unfold Update. simpl. rewrite !ensure_map_allocated.
  rewrite insert_insert_ne by congruence. reflexivity.
Qed.

Lemma Update_commutes_witness :
  fst (Update (fst (Update NewMemoryCustomers bob)) tim17)
  = fst (Update (fst (Update NewMemoryCustomers tim17)) bob).
Proof.
  apply (Update_commutes NewMemoryCustomers bob tim17).
  simpl. discriminate.
Defined.

(** X5. Writing back what was read changes nothing: when [Get] of a
    record's own name returns that record, an [Update] with it leaves the
    directory as the [Get] left it. *)
Theorem Update_of_record_read (mc : MemoryCustomers) (r : Customer) :
  snd (Get mc (Name r)) = (r, None) ->
  fst (Update (fst (Get mc (Name r))) r) = fst (Get mc (Name r)).
Proof.
  rewrite Get_result, Get_receiver. unfold stored.
  destruct (ensure_map mc !! Name r) as [r' |] eqn:Hlk; [| discriminate].
  intros [= ->]. unfold Update. simpl. rewrite ensure_map_allocated.
  rewrite insert_id by exact Hlk. reflexivity.
Qed.

Lemma Update_of_record_read_witness :
  fst (Update (fst (Get (Database tavern) "bob")) bob)
  = fst (Get (Database tavern) "bob").
Proof.
  apply (Update_of_record_read (Database tavern) bob). reflexivity.
Defined.

Lemma latest_keyed (name : string) (rs : list Customer)
    (cur : option Customer) (r : Customer) :
  (forall r0, cur = Some r0 -> Name r0 = name) ->
  latest name rs cur = Some r -> Name r = name.
Proof.
  revert cur. induction rs as [| r1 rs IH]; simpl; intros cur Hcur.
  - apply Hcur.
  - apply IH. intros r0. case_decide; [| apply Hcur].
    intros [= <-]. assumption.
Qed.

(** X6. In a directory filled only through [Update], starting from
    [NewMemoryCustomers], every record is stored under its own name: a
    [Get] that succeeds returns a record whose [Name] is the name asked
    for. *)
Theorem Get_returns_record_of_that_name (rs : list Customer) (name : string)
    (r : Customer) :
  snd (Get (apply_updates rs NewMemoryCustomers) name) = (r, None) ->
  Name r = name.
Proof.
  rewrite Get_result, stored_apply_updates.
  destruct (latest name rs (stored NewMemoryCustomers name)) as [r' |]
    eqn:Hl; [| discriminate].
  intros [= <-]. apply (latest_keyed name rs _ r' ) in Hl; [exact Hl |].
  intros r0. unfold stored, NewMemoryCustomers, ensure_map.
  cbn [Customers]. rewrite lookup_empty. discriminate.
Qed.

Lemma Get_returns_record_of_that_name_witness : Name tim18 = "tim".
Proof.
  apply (Get_returns_record_of_that_name [bob; tim17; tim18] "tim" tim18).
  reflexivity.
Defined.

(** X7. A fresh directory and the zero-value directory (nil map) hold
    nothing: [Get] fails for every name on both and leaves an allocated
    empty map behind, and [Update] on the nil map allocates it and
    stores the record, exactly as on a fresh directory. *)
Theorem empty_directory_behaviour (name : string) (r : Customer) :
  Get NewMemoryCustomers name
    = (NewMemoryCustomers, (zeroCustomer, Some (no_such_customer name))) /\
  Get {| Customers := None |} name
    = (NewMemoryCustomers, (zeroCustomer, Some (no_such_customer name))) /\
  Update {| Customers := None |} r = Update NewMemoryCustomers r /\
  snd (Get (fst (Update {| Customers := None |} r)) (Name r)) = (r, None).
Proof.
  split; [| split; [| split; [reflexivity |]]].
  - unfold Get, NewMemoryCustomers, ensure_map. cbn [Customers].
    rewrite lookup_empty. reflexivity.
  - unfold Get, NewMemoryCustomers, ensure_map. cbn [Customers].
    rewrite lookup_empty. reflexivity.
  - rewrite Get_result, stored_Update. case_decide; [reflexivity | congruence].
Qed.

(** ** The greeting activities and workflow *)

Lemma activityGreetings_result (now : Time) (visitor : Customer)
    (g : Globals) :
  snd (activityGreetings now visitor g)
    = ({| Name := Name visitor; LastVisit := now;
          TimesVisited := GoInt.add (visits (Database g) (Name visitor)) 1;
          Age := Age visitor |}, None).
Proof.
  unfold activityGreetings.
  pose proof (Get_result (Database g) (Name visitor)) as Hres.
  destruct (Get (Database g) (Name visitor)) as [db [old err]].
  simpl in *. unfold visits.
  destruct (stored (Database g) (Name visitor));
    injection Hres as -> _; reflexivity.
Qed.

Lemma activityGreetings_globals (now : Time) (visitor : Customer)
    (g : Globals) :
  (forall n : string,
     stored (Database (fst (activityGreetings now visitor g))) n
       = stored (Database g) n) /\
  visitorCount (fst (activityGreetings now visitor g))
    = GoInt.add (visitorCount g) 1.
Proof.
  unfold activityGreetings.
  pose proof (stored_Get (Database g) (Name visitor)) as Hst.
  destruct (Get (Database g) (Name visitor)) as [db [old err]].
  simpl in *. split; [exact Hst | reflexivity].
Qed.

Lemma activityGreetings_effect (now : Time) (visitor : Customer)
    (g : Globals) :
  snd (activityGreetings now visitor g)
    = ({| Name := Name visitor; LastVisit := now;
          TimesVisited := GoInt.add (visits (Database g) (Name visitor)) 1;
          Age := Age visitor |}, None) /\
  (forall n : string,
     stored (Database (fst (activityGreetings now visitor g))) n
       = stored (Database g) n) /\
  visitorCount (fst (activityGreetings now visitor g))
    = GoInt.add (visitorCount g) 1.
Proof.
  split; [apply activityGreetings_result | apply activityGreetings_globals].
Qed.

(** X8. [activityGreetings] never returns an error and does not write the
    directory: every name reads as before.  It adds one to
    [visitorCount]; the record it returns carries the caller's name and
    age, the clock reading, and the count on file plus one. *)
Theorem activityGreetings_computes_without_storing (now : Time)
    (visitor : Customer) (g : Globals) :
  snd (activityGreetings now visitor g)
    = ({| Name := Name visitor; LastVisit := now;
          TimesVisited := GoInt.add (visits (Database g) (Name visitor)) 1;
          Age := Age visitor |}, None) /\
  (forall n : string,
     stored (Database (fst (activityGreetings now visitor g))) n
       = stored (Database g) n) /\
  visitorCount (fst (activityGreetings now visitor g))
    = GoInt.add (visitorCount g) 1.
Proof.
  destruct (activityGreetings_globals now visitor g) as [Hview Hcount].
  split; [apply activityGreetings_result |].
  split; [exact Hview | exact Hcount].
Qed.

Lemma workflowGreetings_delivered (now : Time) (visitor : Customer)
    (g : Globals) :
  snd (snd (workflowGreetings Delivered Delivered now visitor g)) = None.
Proof.
  unfold workflowGreetings, ExecuteActivity, activityGreetings.
  destruct (Get (Database g) (Name visitor)) as [db [old err]].
  reflexivity.
Qed.

(** X9. A greeting fails only through the substrate: the workflow returns
    a nil error exactly when both of its activities are delivered, also
    for a visitor the directory has never seen.  Whenever it returns an
    error the record returned is [Customer{}], and when the first
    activity is not delivered no name's record changes. *)
Theorem workflowGreetings_fails_only_undelivered (d1 d2 : delivery)
    (now : Time) (visitor : Customer) (g : Globals) :
  (snd (snd (workflowGreetings d1 d2 now visitor g)) = None <->
     d1 = Delivered /\ d2 = Delivered) /\
  (snd (snd (workflowGreetings d1 d2 now visitor g)) <> None ->
     fst (snd (workflowGreetings d1 d2 now visitor g)) = zeroCustomer) /\
  (d1 <> Delivered ->
     forall n : string,
       stored (Database (fst (workflowGreetings d1 d2 now visitor g))) n
         = stored (Database g) n).
Proof.
  pose proof (activityGreetings_effect now visitor g)
    as (Hret & Hview & _).
  unfold workflowGreetings.
  destruct d1; simpl.
  - destruct (activityGreetings now visitor g) as [g1 [out err]].
    simpl in Hret. injection Hret as -> ->. simpl.
    destruct d2; simpl.
    + split; [split; auto |]. split; [congruence |]. congruence.
    + split; [split; [discriminate | intros [_ ?]; discriminate] |].
      split; [reflexivity | congruence].
    + split; [split; [discriminate | intros [_ ?]; discriminate] |].
      split; [reflexivity | congruence].
  - split; [split; [discriminate | intros [? _]; discriminate] |].
    split; [reflexivity | reflexivity].
  - split; [split; [discriminate | intros [? _]; discriminate] |].
    split; [reflexivity |]. intros _. exact Hview.
Qed.

Lemma workflowGreetings_fails_only_undelivered_witness :
  snd (workflowGreetings Delivered (FailedBeforeStart child_timeout) 2000
         bob tavern)
    = (zeroCustomer, Some child_timeout) /\
  stored (Database (fst (workflowGreetings (FailedAfterRun child_timeout)
                           Delivered 2000 bob tavern))) "bob"
    = Some bob.
Proof.
  split.
  - destruct (workflowGreetings_fails_only_undelivered Delivered
                (FailedBeforeStart child_timeout) 2000 bob tavern)
      as (_ & Hzero & _).
    rewrite (surjective_pairing (snd _)). rewrite Hzero.
    + reflexivity.
    + vm_compute. discriminate.
  - destruct (workflowGreetings_fails_only_undelivered
                (FailedAfterRun child_timeout) Delivered 2000 bob tavern)
      as (_ & _ & Hview).
    rewrite Hview; [reflexivity | discriminate].
Defined.

(** X10. After a successful greeting the record on file for the visitor
    carries the name and the age the caller supplied (whatever age was on
    file before) and the clock reading of the run; the record under every
    other name is untouched, and [visitorCount] has grown by one. *)
Theorem workflowGreetings_stores_supplied_fields (d1 d2 : delivery)
    (now : Time) (visitor : Customer) (g g' : Globals) (out : Customer) :
  workflowGreetings d1 d2 now visitor g = (g', (out, None)) ->
  Name out = Name visitor /\ Age out = Age visitor /\
  LastVisit out = now /\
  stored (Database g') (Name visitor) = Some out /\
  (forall n : string,
     n <> Name visitor -> stored (Database g') n = stored (Database g) n) /\
  visitorCount g' = GoInt.add (visitorCount g) 1.
Proof.
  intros Hrun.
  destruct (workflowGreetings_success _ _ _ _ _ _ _ Hrun)
    as (Hout & Hst & Hframe).
  rewrite Hout at 1 2 3. simpl.
  repeat (split; [first [reflexivity | assumption] |]).
  revert Hrun. unfold workflowGreetings.
  destruct d1; simpl; try discriminate.
  pose proof (activityGreetings_effect now visitor g)
    as (_ & _ & Hcount).
  destruct (activityGreetings now visitor g) as [g1 [out1 [e |]]]; simpl;
    try discriminate.
  destruct d2; simpl; try discriminate.
  intros [= <- _]. simpl. exact Hcount.
Qed.

Lemma workflowGreetings_stores_supplied_fields_witness :
  Age <$> stored (Database tavern) "tim" = Some 17 /\
  Age <$> stored (Database (fst (workflowGreetings Delivered Delivered 2000
                                   tim18 tavern))) "tim" = Some 18.
Proof.
  split; [reflexivity |].
  destruct (workflowGreetings_stores_supplied_fields Delivered Delivered 2000
              tim18 tavern
              (fst (workflowGreetings Delivered Delivered 2000 tim18 tavern))
              {| Name := "tim"; LastVisit := 2000; TimesVisited := 2;
                 Age := 18 |})
    as (_ & _ & _ & Hst & _).
  - reflexivity.
  - simpl in Hst. rewrite Hst. reflexivity.
Defined.

Lemma visits_after_greeting (now : Time) (visitor : Customer) (g : Globals) :
  visits (Database (fst (workflowGreetings Delivered Delivered now visitor g)))
         (Name visitor)
  = GoInt.add (visits (Database g) (Name visitor)) 1.
Proof.
  pose proof (workflowGreetings_delivered now visitor g) as Hok.
  destruct (workflowGreetings Delivered Delivered now visitor g)
    as [g' [out err]] eqn:Hrun.
  simpl in Hok. subst err.
  destruct (workflowGreetings_success _ _ _ _ _ _ _ Hrun) as (Hout & Hst & _).
  simpl. unfold visits at 1. rewrite Hst. simpl. rewrite Hout. reflexivity.
Qed.

(** X11. Greetings of one visitor served one after the other add up: as
    long as the count stays within [int], after [k] of them the count on
    file is the count before plus [k]; a visitor the directory had never
    seen is at [k]. *)
Theorem greet_many_counts (nows : list Time) (visitor : Customer)
    (g : Globals) :
  GoInt.min_int <= visits (Database g) (Name visitor) ->
  visits (Database g) (Name visitor) + Z.of_nat (length nows)
    <= GoInt.max_int ->
  visits (Database (greet_many nows visitor g)) (Name visitor)
    = visits (Database g) (Name visitor) + Z.of_nat (length nows) /\
  (stored (Database g) (Name visitor) = None ->
     visits (Database (greet_many nows visitor g)) (Name visitor)
       = Z.of_nat (length nows)).
Proof.
  intros Hmin Hmax.
  assert (Hsum : visits (Database (greet_many nows visitor g)) (Name visitor)
                 = visits (Database g) (Name visitor)
                   + Z.of_nat (length nows)).
  { revert g Hmin Hmax. induction nows as [| now nows IH]; intros g Hmin Hmax.
    - simpl. lia.
    - change (greet_many (now :: nows) visitor g)
        with (greet_many nows visitor
                (fst (workflowGreetings Delivered Delivered now visitor g))).
      pose proof (visits_after_greeting now visitor g) as Hone.
      rewrite add_one_small in Hone by (simpl length in Hmax; lia).
      rewrite IH; rewrite Hone; simpl length in *; lia. }
  split; [exact Hsum |].
  intros Habs. rewrite Hsum. unfold visits. rewrite Habs. reflexivity.
Qed.

Lemma greet_many_counts_witness :
  visits (Database (greet_many [2000; 2001; 2002] bob tavern)) "bob" = 7 /\
  visits (Database (greet_many [2000; 2001]
                      {| Name := "alice"; LastVisit := 0;
                         TimesVisited := 40; Age := 20 |} tavern))
         "alice" = 2.
Proof.
  split.
  - destruct (greet_many_counts [2000; 2001; 2002] bob tavern) as [Hsum _].
    + vm_compute. discriminate.
    + vm_compute. discriminate.
    + exact Hsum.
  - destruct (greet_many_counts [2000; 2001]
                {| Name := "alice"; LastVisit := 0; TimesVisited := 40;
                   Age := 20 |} tavern) as [_ Hnew].
    + vm_compute. discriminate.
    + vm_compute. discriminate.
    + apply Hnew. reflexivity.
Defined.

(** ** Interleaved greetings *)

Lemma holding_other_run (e : GreetEvent) (run : nat) (f f' : Floor) :
  run_of e <> run -> greet_step e f = Some f' ->
  holding f' !! run = holding f !! run.
Proof.
  intros Hne. destruct e as [r now v | r]; simpl in *.
  - destruct (holding f !! r); [discriminate |].
    destruct (activityGreetings now v (floor_globals f)) as [g [out err]].
    intros [= <-]. simpl. apply lookup_insert_ne. exact Hne.
  - destruct (holding f !! r) as [v |]; [| discriminate].
    destruct (activityStoreCustomer v (floor_globals f)) as [g res].
    intros [= <-]. simpl. apply lookup_delete_ne. exact Hne.
Qed.

Lemma holding_other_runs (es : list GreetEvent) (run : nat) (f f' : Floor) :
  Forall (fun e => run_of e <> run) es -> greet_exec es f = Some f' ->
  holding f' !! run = holding f !! run.
Proof.
  revert f. induction es as [| e es IH]; simpl; intros f Hall Hexec.
  - injection Hexec as <-. reflexivity.
  - inversion Hall as [| e0 es0 He Hes]; subst.
    destruct (greet_step e f) as [f1 |] eqn:Hstep; [| discriminate].
    rewrite (IH f1 Hes Hexec). exact (holding_other_run e run f f1 He Hstep).
Qed.

Lemma activityStoreCustomer_stores (visitor : Customer) (g : Globals) :
  stored (Database (fst (activityStoreCustomer visitor g))) (Name visitor)
  = Some visitor.
Proof.
  unfold activityStoreCustomer.
  pose proof (stored_Update (Database g) visitor (Name visitor)) as Hst.
  rewrite decide_True in Hst by reflexivity.
  destruct (Update (Database g) visitor) as [db [e |]]; exact Hst.
Qed.

(** X12. The read and the write of a greeting are two separate activities.
    Whatever the activities of other runs do in between, the store of a
    run writes the count that its greeting activity read plus one, and
    the record then on file is the one that run was holding: stores made
    in between by other greetings of the same name are overwritten. *)
Theorem store_writes_count_read_at_greeting (run : nat) (now : Time)
    (visitor : Customer) (es : list GreetEvent) (f f1 f2 : Floor) :
  greet_step (RunsGreetings run now visitor) f = Some f1 ->
  Forall (fun e => run_of e <> run) es ->
  greet_exec es f1 = Some f2 ->
  exists f3 : Floor,
    greet_step (RunsStore run) f2 = Some f3 /\
    visits (Database (floor_globals f3)) (Name visitor)
      = GoInt.add (visits (Database (floor_globals f)) (Name visitor)) 1 /\
    holding f3 !! run = None.
Proof.
  intros Hgreet Hothers Hexec.
  pose proof (holding_other_runs es run f1 f2 Hothers Hexec) as Hhold.
  simpl in Hgreet.
  destruct (holding f !! run); [discriminate |].
  pose proof (activityGreetings_effect now visitor
                (floor_globals f)) as (Hret & _ & _).
  destruct (activityGreetings now visitor (floor_globals f))
    as [g [out err]].
  simpl in Hret. injection Hret as -> ->.
  injection Hgreet as <-. simpl in Hhold.
  rewrite lookup_insert_eq in Hhold.
  unfold greet_step. rewrite Hhold.
  pose proof (activityStoreCustomer_stores
                {| Name := Name visitor; LastVisit := now;
                   TimesVisited :=
                     GoInt.add
                       (visits (Database (floor_globals f)) (Name visitor)) 1;
                   Age := Age visitor |} (floor_globals f2)) as Hst.
  destruct (activityStoreCustomer _ (floor_globals f2)) as [g' res].
  cbn [fst Name] in Hst.
  eexists. split; [reflexivity |]. cbn [floor_globals holding].
  split; [| apply lookup_delete_eq].
  unfold visits. rewrite Hst. reflexivity.
Qed.

Lemma store_writes_count_read_at_greeting_witness :
  exists f2 f3 : Floor,
    greet_exec [RunsGreetings 1 2000 bob; RunsGreetings 2 2001 bob;
                RunsStore 2; RunsGreetings 3 2002 bob; RunsStore 3]
      {| floor_globals := tavern; holding := ∅ |} = Some f2 /\
    visits (Database (floor_globals f2)) "bob" = 6 /\
    greet_step (RunsStore 1) f2 = Some f3 /\
    visits (Database (floor_globals f3)) "bob" = 5.
Proof.
  eexists. eexists. split; [vm_compute; reflexivity |].
  split; [reflexivity |]. split; [vm_compute; reflexivity |].
  match goal with
  | |- visits (Database (floor_globals ?f3)) _ = _ =>
      destruct (store_writes_count_read_at_greeting 1 2000 bob
                  [RunsGreetings 2 2001 bob; RunsStore 2;
                   RunsGreetings 3 2002 bob; RunsStore 3]
                  {| floor_globals := tavern; holding := ∅ |}
                  (default {| floor_globals := tavern; holding := ∅ |}
                     (greet_step (RunsGreetings 1 2000 bob)
                        {| floor_globals := tavern; holding := ∅ |}))
                  (default {| floor_globals := tavern; holding := ∅ |}
                     (greet_exec
                        [RunsGreetings 1 2000 bob; RunsGreetings 2 2001 bob;
                         RunsStore 2; RunsGreetings 3 2002 bob; RunsStore 3]
                        {| floor_globals := tavern; holding := ∅ |})))
        as (f3' & Hstep & Hcount & _)
  end.
  - vm_compute. reflexivity.
  - repeat constructor; simpl; discriminate.
  - vm_compute. reflexivity.
  - vm_compute in Hstep. injection Hstep as <-. exact Hcount.
Defined.

(** ** The order pipeline *)

(** X13. An order is accepted (the child workflow returns nil) exactly
    when both activities are delivered and the customer named in [By] is
    on file with an age of 18 or more.  With both activities delivered
    the error is "no such customer" for a name not on file and "not old
    enough" for an age below 18. *)
Theorem workflowProcessOrder_accepts_only_adults_on_file (d1 d2 : delivery)
    (order : Order) (g : Globals) :
  (snd (workflowProcessOrder d1 d2 order g) = None <->
     d1 = Delivered /\ d2 = Delivered /\
     exists c : Customer,
       stored (Database g) (By order) = Some c /\ 18 <= Age c) /\
  snd (workflowProcessOrder Delivered Delivered order g) =
    match stored (Database g) (By order) with
    | None => Some (no_such_customer (By order))
    | Some c => if Age c <? 18 then Some not_old_enough else None
    end.
Proof.
  assert (Hdel : snd (workflowProcessOrder Delivered Delivered order g) =
                 match stored (Database g) (By order) with
                 | None => Some (no_such_customer (By order))
                 | Some c => if Age c <? 18 then Some not_old_enough else None
                 end).
  { unfold workflowProcessOrder, ExecuteActivity, activitiyFindCustomerByName.
    pose proof (Get_result (Database g) (By order)) as Hr.
    destruct (Get (Database g) (By order)) as [db res]. simpl in Hr.
    subst res.
    destruct (stored (Database g) (By order)) as [c |]; simpl;
      [| reflexivity].
    unfold activityIsCustomerLegal. destruct (Age c <? 18); reflexivity. }
  split; [| exact Hdel]. split.
  - intros Hnil.
    assert (Hd : d1 = Delivered /\ d2 = Delivered).
    { revert Hnil. unfold workflowProcessOrder.
      destruct d1; simpl; try discriminate.
      destruct (activitiyFindCustomerByName (By order) g)
        as [g1 [c [e |]]]; simpl; try discriminate.
      destruct d2; simpl; try discriminate. auto. }
    destruct Hd as [-> ->]. split; [reflexivity |]. split; [reflexivity |].
    rewrite Hdel in Hnil.
    destruct (stored (Database g) (By order)) as [c |]; [| discriminate].
    exists c. split; [reflexivity |].
    destruct (Z.ltb_spec (Age c) 18); [discriminate | assumption].
  - intros (-> & -> & c & Hst & Hage). rewrite Hdel, Hst.
    destruct (Z.ltb_spec (Age c) 18); [lia | reflexivity].
Qed.

Lemma workflowProcessOrder_accepts_only_adults_on_file_witness :
  snd (workflowProcessOrder Delivered Delivered ale tavern) = None.
Proof.
  destruct (workflowProcessOrder_accepts_only_adults_on_file Delivered
              Delivered ale tavern) as [[_ Haccept] _].
  apply Haccept.
  split; [reflexivity |]. split; [reflexivity |].
  exists bob. split; [reflexivity |]. simpl. lia.
Defined.

(** ** The signal loop: order, isolation, progress *)

Lemma child_order_insert (l : list Child) (c : nat) (order : Order)
    (st st' : ChildStatus) :
  l !! c = Some {| child_order := order; child_status := st |} ->
  map child_order
      (<[c := {| child_order := order; child_status := st' |}]> l)
  = map child_order l.
Proof.
  revert c. induction l as [| ch l IH]; intros [| c]; simpl;
    try discriminate.
  - intros [= ->]. reflexivity.
  - intros Hl. f_equal. apply IH. exact Hl.
Qed.

Lemma orders_in_hand_step (e : Event) (s s' : State) :
  no_new_run e = true -> step e s = Some s' ->
  orders_in_hand s' = orders_in_hand s ++ signals_of [e].
Proof.
  unfold orders_in_hand. destruct e as [| order | c fate |]; simpl;
    try discriminate; intros _.
  - unfold WorkflowOrder_step. destruct (pc s).
    + intros [= <-]. simpl. rewrite app_nil_r. reflexivity.
    + unfold select. destruct (signalChan s) as [| order rest] eqn:Hchan.
      * destruct (hasDefault s); [| discriminate].
        intros [= <-]. simpl. rewrite Hchan, !app_nil_r. reflexivity.
      * intros [= <-]. simpl. rewrite map_app, app_nil_r, <- app_assoc.
        reflexivity.
    + unfold waiter_Get.
      destruct (children s !! c) as [[o [| result]] |]; try discriminate.
      intros [= <-]. simpl. rewrite app_nil_r. reflexivity.
    + destruct (restartWorkflow s); intros [= <-]; simpl;
        rewrite app_nil_r; reflexivity.
    + discriminate.
  - intros [= <-]. simpl. rewrite app_assoc. reflexivity.
  - unfold close_child.
    destruct (children s !! c) as [[o [| result]] |] eqn:Hch;
      try discriminate.
    destruct (match fate with
              | Runs d1 d2 => workflowProcessOrder d1 d2 o (globals s)
              | Fails e => (globals s, Some e)
              end) as [g result].
    intros [= <-]. simpl.
    rewrite (child_order_insert _ _ _ _ _ Hch), app_nil_r. reflexivity.
Qed.

(** X14. Within one run no order is lost, duplicated or overtaken: after
    any schedule without a continue-as-new, the orders of the sub-tasks
    dispatched so far followed by the orders still buffered are the
    orders that were there before followed by the orders signalled since,
    in the order of their signals. *)
Theorem orders_served_in_signal_order (es : list Event) (s s' : State) :
  forallb no_new_run es = true ->
  exec es s = Some s' ->
  orders_in_hand s' = orders_in_hand s ++ signals_of es.
Proof.
  revert s. induction es as [| e es IH]; simpl; intros s Hnn Hexec.
  - injection Hexec as <-. rewrite app_nil_r. reflexivity.
  - apply andb_true_iff in Hnn. destruct Hnn as [He Hes].
    destruct (step e s) as [s1 |] eqn:Hstep; [| discriminate].
    rewrite (IH s1 Hes Hexec), (orders_in_hand_step e s s1 He Hstep).
    rewrite <- app_assoc. f_equal. destruct e; reflexivity.
Qed.

Lemma orders_served_in_signal_order_witness :
  exists s : State,
    exec four_orders_queued (init tavern) = Some s /\
    map child_order (children s) ++ signalChan s = [ale; mead; ale; mead].
Proof.
  eexists. split; [vm_compute; reflexivity |].
  match goal with
  | |- map child_order (children ?s) ++ signalChan ?s = _ =>
      apply (orders_served_in_signal_order four_orders_queued
               (init tavern) s)
  end.
  - reflexivity.
  - vm_compute. reflexivity.
Defined.

Lemma Turns_start (gen : nat) (chan : list Order) (g : Globals) :
  Turns (WorkflowOrder_start gen chan g).
Proof. constructor; [discriminate | reflexivity]. Qed.

Lemma not_restarting_unless_after_select (s : State) :
  Inv s -> pc s <> AfterSelect -> pc s <> Returned ->
  restartWorkflow s = false.
Proof.
  intros HI Ha Hr. destruct (restartWorkflow s) eqn:Hre; [| reflexivity].
  destruct (I_restart s HI Hre) as [_ [? | ?]]; contradiction.
Qed.

Lemma Turns_step (e : Event) (s s' : State) :
  Inv s -> Turns s -> step e s = Some s' -> Turns s'.
Proof.
  intros HI [Hlat Hrec]. unfold pending_select, default_taken in Hrec.
  destruct e as [| order | c fate |]; simpl.
  - unfold WorkflowOrder_step. destruct (pc s) eqn:Hpc.
    + pose proof (not_restarting_unless_after_select s HI) as Hnr.
      rewrite Hpc in Hnr. rewrite Hnr in Hrec by discriminate.
      intros [= <-]. constructor; [discriminate |].
      unfold pending_select, default_taken, dispatched in *. simpl.
      rewrite Hnr by discriminate. lia.
    + pose proof (not_restarting_unless_after_select s HI) as Hnr.
      rewrite Hpc in Hnr. rewrite Hnr in Hrec by discriminate.
      unfold select. destruct (signalChan s) as [| order rest].
      * destruct (hasDefault s); [| discriminate].
        intros [= <-]. constructor; [discriminate |].
        unfold pending_select, default_taken, dispatched in *. simpl. lia.
      * intros [= <-]. constructor.
        -- simpl. intros c [= <-]. unfold dispatched. simpl.
           rewrite length_app. simpl. lia.
        -- unfold pending_select, default_taken, dispatched in *. simpl.
           rewrite Hnr by discriminate. rewrite length_app. simpl. lia.
    + pose proof (not_restarting_unless_after_select s HI) as Hnr.
      rewrite Hpc in Hnr. rewrite Hnr in Hrec by discriminate.
      unfold waiter_Get.
      destruct (children s !! c) as [[o [| result]] |]; try discriminate.
      intros [= <-]. constructor; [discriminate |].
      unfold pending_select, default_taken, dispatched in *. simpl.
      rewrite Hnr by discriminate. lia.
    + destruct (restartWorkflow s) eqn:Hre; intros [= <-];
        (constructor; [discriminate |]);
        unfold pending_select, default_taken, dispatched in *; simpl;
        rewrite Hre; lia.
    + discriminate.
  - intros [= <-]. constructor; [exact Hlat | exact Hrec].
  - unfold close_child.
    destruct (children s !! c) as [[o [| result]] |]; try discriminate.
    destruct (match fate with
              | Runs d1 d2 => workflowProcessOrder d1 d2 o (globals s)
              | Fails e => (globals s, Some e)
              end) as [g result].
    intros [= <-]. constructor.
    + simpl. intros c' Hc'. unfold dispatched. simpl.
      rewrite length_insert. apply Hlat. exact Hc'.
    + unfold pending_select, default_taken, dispatched in *. simpl.
      rewrite length_insert. exact Hrec.
  - unfold continue_as_new. destruct (pc s); try discriminate.
    intros [= <-]. apply Turns_start.
Qed.

Lemma Turns_reachable (s : State) : reachable s -> Turns s.
Proof.
  intros (g & es & Hexec).
  assert (Hboth : Inv s /\ Turns s); [| apply Hboth].
  revert Hexec. generalize (Inv_start 0 [] g) (Turns_start 0 [] g).
  unfold init. generalize (WorkflowOrder_start 0 [] g). clear g.
  induction es as [| e es IH]; simpl; intros s0 HI HT.
  - intros [= <-]. split; assumption.
  - destruct (step e s0) as [s1 |] eqn:Hstep; [| discriminate].
    apply IH; [exact (Inv_step e s0 s1 HI Hstep) |].
    exact (Turns_step e s0 s1 HI HT Hstep).
Qed.

(** X15. Orders are processed one at a time: in every reachable state at
    most one sub-task of the run is running, and it is the one dispatched
    last. *)
Theorem one_child_at_a_time (s : State) (c : nat) :
  reachable s -> in_flight s c = true ->
  S c = dispatched s /\
  forall c' : nat, in_flight s c' = true -> c' = c.
Proof.
  intros Hreach Hc. pose proof (Inv_reachable s Hreach) as HI.
  pose proof (Turns_reachable s Hreach) as HT.
  split.
  - apply (T_latest s HT). apply (I_inflight s HI). exact Hc.
  - intros c' Hc'. apply (I_inflight s HI) in Hc, Hc'. congruence.
Qed.

Lemma one_child_at_a_time_witness :
  exists s : State,
    exec four_orders_queued (init tavern) = Some s /\
    dispatched s = 4%nat /\
    forall c' : nat, in_flight s c' = true -> c' = 3%nat.
Proof.
  eexists. split; [vm_compute; reflexivity |]. split; [reflexivity |].
  match goal with
  | |- forall c', in_flight ?s c' = true -> _ =>
      destruct (one_child_at_a_time s 3) as [_ Honly]
  end.
  - exists tavern, four_orders_queued. vm_compute. reflexivity.
  - reflexivity.
  - exact Honly.
Defined.

(** X16. The selector keeps every receive case it was given: each turn of
    the loop adds one more for the same channel, so in every reachable
    state their number is the number of sub-tasks the run has dispatched,
    plus one while a [Select] is under way, plus one once the default
    case has been taken. *)
Theorem selector_accumulates_receive_cases (s : State) :
  reachable s ->
  receives s = (dispatched s + pending_select s + default_taken s)%nat.
Proof.
  intros Hreach. apply (T_receives s (Turns_reachable s Hreach)).
Qed.

Lemma selector_accumulates_receive_cases_witness :
  exists s : State,
    exec three_orders_then_restart (init tavern) = Some s /\
    receives s = 4%nat.
Proof.
  eexists. split; [vm_compute; reflexivity |].
  match goal with
  | |- receives ?s = _ =>
      rewrite (selector_accumulates_receive_cases s)
  end.
  - reflexivity.
  - exists tavern, three_orders_then_restart. vm_compute. reflexivity.
Defined.

Lemma same_view_step (e : Event) (s s' : State) :
  step e s = Some s' -> same_view (globals s) (globals s').
Proof.
  destruct e as [| order | c fate |]; simpl.
  - unfold WorkflowOrder_step, select, waiter_Get.
    destruct (pc s); try discriminate.
    + intros [= <-]. apply same_view_refl.
    + destruct (signalChan s); [destruct (hasDefault s) |];
        try discriminate; intros [= <-]; apply same_view_refl.
    + destruct (children s !! c) as [[o [| result]] |]; try discriminate.
      intros [= <-]. apply same_view_refl.
    + destruct (restartWorkflow s); intros [= <-]; apply same_view_refl.
  - intros [= <-]. apply same_view_refl.
  - unfold close_child.
    destruct (children s !! c) as [[o [| result]] |]; try discriminate.
    destruct fate as [d1 d2 | e].
    + pose proof (workflowProcessOrder_same_view d1 d2 o (globals s)) as Hv.
      destruct (workflowProcessOrder d1 d2 o (globals s)) as [g result].
      intros [= <-]. exact Hv.
    + intros [= <-]. apply same_view_refl.
  - unfold continue_as_new. destruct (pc s); try discriminate.
    intros [= <-]. apply same_view_refl.
Qed.

(** X17. Serving orders never writes the directory: along every schedule
    of the signal loop, across restarts and whatever the orders and their
    outcomes, every name reads the same record at the end as at the
    start, and [visitorCount] is unchanged. *)
Theorem orders_never_change_directory (es : list Event) (s s' : State) :
  exec es s = Some s' -> same_view (globals s) (globals s').
Proof.
  revert s. induction es as [| e es IH]; simpl; intros s Hexec.
  - injection Hexec as <-. apply same_view_refl.
  - destruct (step e s) as [s1 |] eqn:Hstep; [| discriminate].
    exact (same_view_trans _ _ _ (same_view_step e s s1 Hstep)
             (IH s1 Hexec)).
Qed.

Lemma orders_never_change_directory_witness :
  exists s : State,
    exec three_orders_then_restart (init tavern) = Some s /\
    stored (Database (globals s)) "bob" = Some bob.
Proof.
  eexists. split; [vm_compute; reflexivity |].
  match goal with
  | |- stored (Database (globals ?s)) _ = _ =>
      destruct (orders_never_change_directory three_orders_then_restart
                  (init tavern) s) as [_ Hview]
  end.
  - vm_compute. reflexivity.
  - rewrite Hview. reflexivity.
Defined.

Lemma child_shape_lookup (l1 l2 : list Child) (c : nat) (ch1 : Child) :
  (fun ch => (child_order ch, running ch)) <$> l1
    = (fun ch => (child_order ch, running ch)) <$> l2 ->
  l1 !! c = Some ch1 ->
  exists ch2 : Child,
    l2 !! c = Some ch2 /\ child_order ch2 = child_order ch1 /\
    running ch2 = running ch1.
Proof.
  intros Hsh Hl1.
  assert (Hlk : ((fun ch => (child_order ch, running ch)) <$> l2) !! c
                = Some (child_order ch1, running ch1)).
  { rewrite <- Hsh, list_lookup_fmap, Hl1. reflexivity. }
  rewrite list_lookup_fmap in Hlk.
  destruct (l2 !! c) as [ch2 |]; [| discriminate].
  injection Hlk as Ho Hr. exists ch2. auto.
Qed.

Lemma control_step (e1 e2 : Event) (s1 s2 s1' : State) :
  control s1 = control s2 -> erase_fate e1 = erase_fate e2 ->
  step e1 s1 = Some s1' ->
  exists s2' : State, step e2 s2 = Some s2' /\ control s1' = control s2'.
Proof.
  unfold control. intros Hc He.
  injection Hc as Hpc Hre Hcnt Hrec Hdef Hch Hgen Hchan.
  assert (Hlen : length (children s1) = length (children s2)).
  { apply (f_equal length) in Hch. rewrite !length_fmap in Hch. exact Hch. }
  destruct e1 as [| o1 | c1 f1 |], e2 as [| o2 | c2 f2 |];
    try discriminate He; simpl.
  - unfold WorkflowOrder_step. rewrite <- Hpc. destruct (pc s1) eqn:Hpc1.
    + intros [= <-]. eexists. split; [reflexivity |]. simpl.
      rewrite Hcnt, Hdef. congruence.
    + unfold select. rewrite <- Hchan, <- Hdef.
      destruct (signalChan s1) as [| order rest] eqn:Hchan1.
      * destruct (hasDefault s1) eqn:Hdef1; [| discriminate].
        intros [= <-]. eexists. split; [reflexivity |]. simpl. congruence.
      * intros [= <-]. eexists. split; [reflexivity |]. simpl.
        rewrite !fmap_app. congruence.
    + unfold waiter_Get.
      destruct (children s1 !! c) as [[o [| result]] |] eqn:Hl1;
        try discriminate.
      destruct (child_shape_lookup _ _ _ _ Hch Hl1)
        as ([o2 st2] & Hl2 & Ho & Hr).
      unfold running in Hr. simpl in Ho, Hr.
      destruct st2 as [| r2]; [discriminate |].
      rewrite Hl2. intros [= <-]. eexists. split; [reflexivity |]. simpl.
      congruence.
    + rewrite <- Hre. destruct (restartWorkflow s1) eqn:Hre1;
        intros [= <-]; (eexists; split; [reflexivity |]); simpl;
        congruence.
    + discriminate.
  - simpl in He. injection He as <-. intros [= <-].
    eexists. split; [reflexivity |]. simpl. congruence.
  - simpl in He. injection He as <-. unfold close_child.
    destruct (children s1 !! c1) as [[o [| result]] |] eqn:Hl1;
      try discriminate.
    destruct (child_shape_lookup _ _ _ _ Hch Hl1)
      as ([o2 st2] & Hl2 & Ho & Hr).
    unfold running in Hr. simpl in Ho, Hr. subst o2.
    destruct st2 as [| r2]; [| discriminate].
    rewrite Hl2.
    destruct (match f1 with
              | Runs d1 d2 => workflowProcessOrder d1 d2 o (globals s1)
              | Fails e => (globals s1, Some e)
              end) as [g1 res1].
    destruct (match f2 with
              | Runs d1 d2 => workflowProcessOrder d1 d2 o (globals s2)
              | Fails e => (globals s2, Some e)
              end) as [g2 res2].
    intros [= <-]. eexists. split; [reflexivity |]. simpl.
    rewrite !list_fmap_insert. unfold running in Hch |- *.
    cbn [child_order child_status]. congruence.
  - unfold continue_as_new. rewrite <- Hpc.
    destruct (pc s1); try discriminate.
    intros [= <-]. eexists. split; [reflexivity |]. simpl. congruence.
Qed.

Lemma control_exec (es1 es2 : list Event) (s1 s2 s1' : State) :
  control s1 = control s2 -> map erase_fate es1 = map erase_fate es2 ->
  exec es1 s1 = Some s1' ->
  exists s2' : State, exec es2 s2 = Some s2' /\ control s1' = control s2'.
Proof.
  revert es2 s1 s2. induction es1 as [| e1 es1 IH];
    intros [| e2 es2] s1 s2 Hc Hes; try discriminate Hes; simpl.
  - intros [= <-]. exists s2. auto.
  - injection Hes as He Hes.
    destruct (step e1 s1) as [t1 |] eqn:Hstep; [| discriminate].
    destruct (control_step e1 e2 s1 s2 t1 Hc He Hstep) as (t2 & Hs2 & Hc').
    rewrite Hs2. apply IH; assumption.
Qed.

(** X18. The outcome of an order does not steer the loop: two schedules
    that differ only in how the children end (accepted, rejected, timed
    out) are both possible or both impossible from a state, and lead to
    states with the same control point, counter, restart flag, selector,
    buffered signals, and the same children running and closed. *)
Theorem child_outcomes_do_not_steer_loop (es1 es2 : list Event)
    (s s1 : State) :
  map erase_fate es1 = map erase_fate es2 ->
  exec es1 s = Some s1 ->
  exists s2 : State, exec es2 s = Some s2 /\ control s1 = control s2.
Proof.
  intros Hes Hexec.
  exact (control_exec es1 es2 s s s1 eq_refl Hes Hexec).
Qed.

Lemma child_outcomes_do_not_steer_loop_witness :
  exists s1 s2 : State,
    exec three_orders_then_restart (init tavern) = Some s1 /\
    exec ([Signal ale; Signal mead; Signal ale]
            ++ serve 0 (Fails child_timeout)
            ++ serve 1 (Runs (FailedBeforeStart child_timeout) Delivered)
            ++ serve 2 (Runs Delivered Delivered)
            ++ [Tick; Tick; Tick]) (init tavern) = Some s2 /\
    control s1 = control s2.
Proof.
  eexists.
  match goal with
  | |- exists s2, ?E1 = Some ?s1 /\ _ =>
      destruct (child_outcomes_do_not_steer_loop three_orders_then_restart
                  ([Signal ale; Signal mead; Signal ale]
                     ++ serve 0 (Fails child_timeout)
                     ++ serve 1 (Runs (FailedBeforeStart child_timeout)
                                   Delivered)
                     ++ serve 2 (Runs Delivered Delivered)
                     ++ [Tick; Tick; Tick])
                  (init tavern)
                  (default (init tavern)
                     (exec three_orders_then_restart (init tavern))))
        as (s2 & Hexec2 & Hcontrol)
  end.
  - reflexivity.
  - vm_compute. reflexivity.
  - exists s2. split; [vm_compute; reflexivity |].
    split; [exact Hexec2 | exact Hcontrol].
Defined.

Lemma exec_cons (e : Event) (es : list Event) (s : State) :
  exec (e :: es) s =
    match step e s with
    | Some s' => exec es s'
    | None => None
    end.
Proof. reflexivity. Qed.

Lemma close_child_running (c : nat) (fate : ChildFate) (s : State)
    (order : Order) :
  children s !! c
    = Some {| child_order := order; child_status := ChildRunning |} ->
  exists (s' : State) (result : option error),
    close_child c fate s = Some s' /\
    pc s' = pc s /\ restartWorkflow s' = restartWorkflow s /\
    signalChan s' = signalChan s /\
    children s'
      = <[c := {| child_order := order;
                  child_status := ChildClosed result |}]> (children s).
Proof.
  intros Hch. unfold close_child. rewrite Hch.
  destruct (match fate with
            | Runs d1 d2 => workflowProcessOrder d1 d2 order (globals s)
            | Fails e => (globals s, Some e)
            end) as [g result].
  eexists. exists result. split; [reflexivity |]. simpl. auto.
Qed.

(** One turn of the loop, from the loop head back to the loop head, for
    the signal at the head of the channel. *)
Lemma serve_turn (s : State) (fate : ChildFate) (order : Order)
    (rest : list Order) :
  Inv s -> pc s = AtLoop -> signalChan s = order :: rest ->
  exists s1 : State,
    exec (serve (dispatched s) fate) s = Some s1 /\
    pc s1 = AtLoop /\ signalChan s1 = rest /\
    dispatched s1 = S (dispatched s) /\
    map child_order (children s1) = map child_order (children s) ++ [order].
Proof.
  intros HI Hpc Hchan.
  assert (Hr : restartWorkflow s = false)
    by (apply (not_restarting_unless_after_select s HI); congruence).
  set (new := {| child_order := order; child_status := ChildRunning |}).
  assert (Hnew : (children s ++ [new]) !! length (children s) = Some new).
  { rewrite lookup_app_r by lia. rewrite Nat.sub_diag. reflexivity. }
  assert (E1 : step Tick s = Some (loop_head s))
    by (simpl; unfold WorkflowOrder_step; rewrite Hpc; reflexivity).
  assert (E2 : step Tick (loop_head s)
               = Some (on_receive order rest (loop_head s))).
  { simpl. unfold WorkflowOrder_step, select. cbn [pc loop_head signalChan].
    rewrite Hchan. reflexivity. }
  destruct (close_child_running (length (children s)) fate
              (on_receive order rest (loop_head s)) order Hnew)
    as (s3 & result & E3 & Hpc3 & Hr3 & Hchan3 & Hch3).
  cbn [pc restartWorkflow signalChan children on_receive loop_head]
    in Hpc3, Hr3, Hchan3, Hch3. fold new in Hch3.
  assert (E4 : step Tick s3 = Some (set_pc AfterSelect s3)).
  { simpl. unfold WorkflowOrder_step, waiter_Get. rewrite Hpc3, Hch3.
    rewrite list_lookup_insert_eq by (rewrite length_app; simpl; lia).
    reflexivity. }
  assert (E5 : step Tick (set_pc AfterSelect s3)
               = Some (set_pc AtLoop (set_pc AfterSelect s3))).
  { simpl. unfold WorkflowOrder_step. cbn [pc restartWorkflow set_pc].
    rewrite Hr3, Hr. reflexivity. }
  exists (set_pc AtLoop (set_pc AfterSelect s3)).
  unfold serve, dispatched.
  rewrite exec_cons, E1, exec_cons, E2, exec_cons.
  change (step (Close (length (children s)) fate)
            (on_receive order rest (loop_head s)))
    with (close_child (length (children s)) fate
            (on_receive order rest (loop_head s))).
  rewrite E3, exec_cons, E4, exec_cons, E5.
  split; [reflexivity |]. cbn [pc signalChan children set_pc].
  split; [reflexivity |]. split; [exact Hchan3 |].
  rewrite Hch3, length_insert, length_app. simpl. split; [lia |].
  rewrite (child_order_insert _ _ _ _ _ Hnew), map_app. reflexivity.
Qed.

Lemma default_turn (s : State) :
  Inv s -> pc s = AtLoop -> signalChan s = [] -> (3 <= dispatched s)%nat ->
  exists s' : State,
    exec [Tick; Tick; Tick] s = Some s' /\
    pc s' = Returned /\ signalChan s' = [] /\ children s' = children s.
Proof.
  intros HI Hpc Hchan H3.
  assert (Hstep : step Tick s = Some (loop_head s))
    by (simpl; unfold WorkflowOrder_step; rewrite Hpc; reflexivity).
  pose proof (Inv_step Tick s (loop_head s) HI Hstep) as HI1.
  assert (Hd : hasDefault (loop_head s) = true)
    by (apply (I_armed _ HI1); [left; reflexivity | exact H3]).
  simpl. unfold WorkflowOrder_step at 1. rewrite Hpc.
  unfold WorkflowOrder_step at 1. cbn [pc loop_head]. unfold select.
  cbn [signalChan loop_head]. rewrite Hchan, Hd.
  eexists. split; [reflexivity |]. simpl. rewrite Hchan. auto.
Qed.

Lemma drain_from (fates : list ChildFate) (s : State) :
  Inv s -> pc s = AtLoop ->
  length fates = length (signalChan s) ->
  (3 <= dispatched s + length fates)%nat ->
  exists s' : State,
    exec (serve_all (dispatched s) fates ++ [Tick; Tick; Tick]) s = Some s' /\
    pc s' = Returned /\ signalChan s' = [] /\
    map child_order (children s')
      = map child_order (children s) ++ signalChan s.
Proof.
  revert s. induction fates as [| fate fates IH]; intros s HI Hpc Hlen H3.
  - destruct (signalChan s) eqn:Hchan; [| discriminate].
    simpl in H3. rewrite Nat.add_0_r in H3.
    destruct (default_turn s HI Hpc Hchan H3) as (s' & He & Hp & Hc & Hch).
    exists s'. simpl serve_all. simpl app.
    rewrite Hch, app_nil_r. auto.
  - destruct (signalChan s) as [| order rest] eqn:Hchan; [discriminate |].
    simpl in Hlen. injection Hlen as Hlen.
    destruct (serve_turn s fate order rest HI Hpc Hchan)
      as (s1 & He1 & Hp1 & Hc1 & Hd1 & Ho1).
    pose proof (Inv_exec _ _ _ HI He1) as HI1.
    destruct (IH s1 HI1 Hp1) as (s' & He & Hp & Hc & Ho).
    + rewrite Hc1. exact Hlen.
    + rewrite Hd1. simpl in H3. lia.
    + exists s'.
      change (serve_all (dispatched s) (fate :: fates))
        with (serve (dispatched s) fate
                ++ serve_all (S (dispatched s)) fates).
      rewrite <- app_assoc, exec_app, He1.
      rewrite <- Hd1. split; [exact He |]. split; [exact Hp |].
      split; [exact Hc |]. rewrite Ho, Ho1, Hc1, <- app_assoc. reflexivity.
Qed.

(** X19. The loop drains and restarts: from any reachable state at the
    loop head, if the signals buffered bring the run to three or more
    orders, then serving them one by one (however each child ends) and
    taking one more turn makes the run return its continue-as-new error
    with every buffered order dispatched, in order, the channel empty and
    every child closed. *)
Theorem loop_drains_and_restarts (fates : list ChildFate) (s : State) :
  reachable s -> pc s = AtLoop ->
  length fates = length (signalChan s) ->
  (3 <= dispatched s + length fates)%nat ->
  exists s' : State,
    exec (serve_all (dispatched s) fates ++ [Tick; Tick; Tick]) s = Some s' /\
    pc s' = Returned /\ signalChan s' = [] /\
    map child_order (children s')
      = map child_order (children s) ++ signalChan s /\
    all_closed s' = true /\
    is_Some (step NewRun s').
Proof.
  intros Hreach Hpc Hlen H3. pose proof (Inv_reachable s Hreach) as HI.
  destruct (drain_from fates s HI Hpc Hlen H3) as (s' & He & Hp & Hc & Ho).
  exists s'. repeat (split; [assumption |]).
  pose proof (Inv_exec _ _ _ HI He) as HI'. split.
  - apply all_closed_no_flight. intros c.
    destruct (in_flight s' c) eqn:Hfl; [| reflexivity].
    pose proof (I_inflight s' HI' c Hfl). congruence.
  - simpl. unfold continue_as_new. rewrite Hp. eexists. reflexivity.
Qed.

Lemma loop_drains_and_restarts_witness :
  exists s s' : State,
    exec [Signal ale; Signal mead; Signal ale] (init tavern) = Some s /\
    exec (serve_all 0 [Runs Delivered Delivered; Fails child_timeout;
                       Runs Delivered Delivered] ++ [Tick; Tick; Tick]) s
      = Some s' /\
    pc s' = Returned /\
    map child_order (children s') = [ale; mead; ale].
Proof.
  eexists.
  match goal with
  | |- exists s', ?E = Some ?s /\ _ =>
      destruct (loop_drains_and_restarts
                  [Runs Delivered Delivered; Fails child_timeout;
                   Runs Delivered Delivered]
                  (default (init tavern)
                     (exec [Signal ale; Signal mead; Signal ale]
                        (init tavern))))
        as (s' & Hexec & Hpc & _ & Horders & _)
  end.
  - exists tavern, [Signal ale; Signal mead; Signal ale].
    vm_compute. reflexivity.
  - reflexivity.
  - reflexivity.
  - vm_compute. lia.
  - exists s'. split; [vm_compute; reflexivity |].
    split; [exact Hexec |]. split; [exact Hpc | exact Horders].
Defined.
